(** * The task allocator of [scripts/assign_tasks.py]

    A shallow embedding of [TaskAssigner]: the scoring function
    [calculate_task_score], the priority sort, the greedy loop of
    [assign_tasks] and the read-only [suggest_assignments], followed by
    the properties the specification states about them. *)

From Stdlib Require Import ZArith String Ascii.
From stdpp Require Import gmap strings list sorting.

Local Open Scope string_scope.
Local Open Scope list_scope.
Local Open Scope Z_scope.

(** ** Python strings *)

Module PyStr.

(** [str.lower] on ASCII text ([str.isascii], see [is_ascii]): the
    letters [A]..[Z] move to [a]..[z], every other character is kept.
    Outside ASCII Python lowers further letters, which this function does
    not follow; statements that depend on what lowering does are stated
    for ASCII text. *)
Definition lower_char (c : ascii) : ascii :=
  let n := nat_of_ascii c in
  if (bool_decide (65 ≤ n)%nat && bool_decide (n ≤ 90)%nat)
  then ascii_of_nat (n + 32) else c.

Fixpoint lower (s : string) : string :=
  match s with
  | EmptyString => EmptyString
  | String c s' => String (lower_char c) (lower s')
  end.

(** [needle in hay] on two strings: [needle] occurs in [hay] at some
    offset (the empty string occurs everywhere). *)
Fixpoint contains (hay needle : string) : bool :=
  String.prefix needle hay ||
  match hay with
  | EmptyString => false
  | String _ hay' => contains hay' needle
  end.

(** [x in xs] on a list of strings. *)
Definition mem (x : string) (xs : list string) : bool :=
  bool_decide (x ∈ xs).

End PyStr.

(** ** Data model *)

(** An issue of the tracker: [issue.number], which tells apart issues
    that read alike and stands for the object the allocator calls
    [add_to_assignees] on, and what the allocator reads of it:
    [issue.title], [issue.body] ([None] when the tracker has no text) and
    the names of [issue.labels] in the tracker's order. *)
Record Issue := mkIssue {
  number : Z;
  title : string;
  body : option string;
  labels : list string
}.

(** One value of the [self.interns] dictionary. *)
Record Intern := mkIntern {
  username : string;
  name : string;
  skills : list string;
  preferences : list string;
  max_tasks : Z;
  current_tasks : Z
}.

(** [intern["current_tasks"] = n] *)
Definition set_current_tasks (n : Z) (w : Intern) : Intern :=
  {| username := username w; name := name w; skills := skills w;
     preferences := preferences w; max_tasks := max_tasks w;
     current_tasks := n |}.

#[global] Instance Issue_eq_dec : EqDecision Issue.
Proof. solve_decision. Defined.

#[global] Instance Intern_eq_dec : EqDecision Intern.
Proof. solve_decision. Defined.

(** ** Scores

    Every amount the scoring adds is a multiple of 0.5, and such sums are
    exact in binary floating point, so a score is represented by the
    integer number of half points it holds: 2.0 is [4], 1.5 is [3],
    1.0 is [2], 0.5 is [1], and the initial [best_score = -1] is [-2]. *)
Definition points := Z.

Definition pts_2_0 : points := 4.
Definition pts_1_5 : points := 3.
Definition pts_1_0 : points := 2.
Definition pts_0_5 : points := 1.

(** [calculate_task_score(issue, intern)] *)
Definition calculate_task_score (issue : Issue) (intern : Intern) : points :=
  let score := 0 in
  let issue_labels := map PyStr.lower (labels issue) in
  let issue_body :=
    match body issue with
    | Some b => if bool_decide (b = "") then "" else PyStr.lower b
    | None => ""
    end in
  let score :=
    fold_left (fun score skill =>
                 if PyStr.contains issue_body skill || PyStr.mem skill issue_labels
                 then score + pts_2_0 else score)
              (skills intern) score in
  let score :=
    fold_left (fun score preference =>
                 if PyStr.mem preference issue_labels
                 then score + pts_1_5 else score)
              (preferences intern) score in
  let score :=
    if PyStr.mem "high-priority" issue_labels then score + pts_1_0
    else if PyStr.mem "medium-priority" issue_labels then score + pts_0_5
    else score in
  let score :=
    if PyStr.mem "good first issue" issue_labels
       && bool_decide (current_tasks intern = 0)
    then score + pts_1_0 else score in
  score.

(** ** Priority sort *)

Definition priority_order : list string :=
  ["high-priority"; "medium-priority"; "low-priority"].

(** [xs.index(x)]; [None] stands for the [ValueError] of an absent
    element. *)
Fixpoint list_index (x : string) (xs : list string) : option Z :=
  match xs with
  | [] => None
  | y :: ys => if bool_decide (y = x) then Some 0
               else Z.succ <$> list_index x ys
  end.

(** The sort key of an issue:
    [min([priority_order.index(l) for l in labels if l in priority_order]
         + [len(priority_order)])].
    The guard keeps exactly the names on which [index] succeeds, and the
    minimum of a list that ends with [n] is the minimum of [n] and the
    elements before it. *)
Definition priority_key (issue : Issue) : Z :=
  foldr Z.min (Z.of_nat (length priority_order))
        (omap (fun l => if PyStr.mem l priority_order
                        then list_index l priority_order else None)
              (labels issue)).

(** [list.sort(key=...)] is a stable sort. It is modelled by insertion:
    an element goes in front of the first element whose key is not
    smaller, so elements with equal keys keep their order. *)
Section StableSort.
Context {A : Type} (key : A → Z).

Fixpoint insert_by (x : A) (l : list A) : list A :=
  match l with
  | [] => [x]
  | y :: l' => if bool_decide (key x ≤ key y) then x :: y :: l'
               else y :: insert_by x l'
  end.

Fixpoint sort_by (l : list A) : list A :=
  match l with
  | [] => []
  | x :: l' => insert_by x (sort_by l')
  end.
End StableSort.

Definition sort_by_priority (issues : list Issue) : list Issue :=
  sort_by priority_key issues.

(** ** The tracker and the run state *)

(** What [issue.add_to_assignees] raises when the tracker refuses. *)
Record GithubException := mkGithubException {
  status : Z;
  message : string
}.

(** The tracker's answer to the [n]-th [add_to_assignees(username)] call
    of a run ([n] counted from 0), for a tracker that raises nothing but
    its own [GithubException]: [None] when the call returns, [Some e] when
    it raises [e]. [assign_tasks] below is the run against such a tracker,
    the one that always returns to its caller; calls that raise anything
    else are the subject of [RaisingTracker] and [assign_tasks_raising],
    and [assign_tasks_raising_handled] relates the two. *)
Definition Tracker : Type := nat → Issue → string → option GithubException.

(** A reference to one of the dictionaries in [self.interns]: its position
    in iteration order, with the value read through it. *)
Definition InternRef : Type := nat * Intern.

(** The lines [assign_tasks] prints inside its loop. An [Assigned] line
    follows a call of [add_to_assignees] that returned: these are the
    assignments of the run. *)
Inductive Event :=
  | Assigned (issue : Issue) (intern : InternRef) (score : points)
  | AssignError (issue : Issue) (intern : InternRef) (e : GithubException)
  | NoSuitableIntern (issue : Issue).

Record RunState := mkRunState {
  interns : list Intern;     (* [self.interns.values()], in iteration order *)
  assignments_made : Z;
  calls : nat;               (* [add_to_assignees] calls sent so far *)
  output : list Event
}.

(** [workload.get(username, 0)] *)
Definition workload_get (workload : gmap string Z) (user : string) : Z :=
  default 0 (workload !! user).

(** The seeding loop at the head of [assign_tasks]:
    [intern["current_tasks"] = workload.get(intern["username"], 0)]. *)
Definition seed (workload : gmap string Z) (ws : list Intern) : list Intern :=
  (fun w => set_current_tasks (workload_get workload (username w)) w) <$> ws.

(** ** Choosing the best intern *)

(** The inner [for] loop of [assign_tasks], started at position [i] with
    the current [(best_intern, best_score)]. *)
Fixpoint scan_interns (issue : Issue) (i : nat) (ws : list Intern)
    (best : option InternRef * points) : option InternRef * points :=
  match ws with
  | [] => best
  | intern :: ws' =>
      let best' :=
        if bool_decide (max_tasks intern ≤ current_tasks intern) then best
        else
          let score := calculate_task_score issue intern in
          if bool_decide (best.2 < score) then (Some (i, intern), score)
          else best in
      scan_interns issue (S i) ws' best'
  end.

(** [best_intern = None; best_score = -1] followed by the inner loop. *)
Definition find_best (issue : Issue) (ws : list Intern)
    : option InternRef * points :=
  scan_interns issue 0 ws (None, -2).

(** ** [assign_tasks] *)

(** [print(...)] inside the loop. *)
Definition print (ev : Event) (st : RunState) : RunState :=
  {| interns := interns st; assignments_made := assignments_made st;
     calls := calls st; output := output st ++ [ev] |}.

(** One more [add_to_assignees] call has reached the tracker. *)
Definition sent (st : RunState) : RunState :=
  {| interns := interns st; assignments_made := assignments_made st;
     calls := S (calls st); output := output st |}.

(** [best_intern["current_tasks"] += 1; assignments_made += 1]: the
    dictionary is updated in place, through the reference. *)
Definition bump (r : InternRef) (ws : list Intern) : list Intern :=
  alter (fun w => set_current_tasks (current_tasks w + 1) w) r.1 ws.

Definition count_assignment (best_intern : InternRef) (st : RunState) : RunState :=
  {| interns := bump best_intern (interns st);
     assignments_made := assignments_made st + 1;
     calls := calls st; output := output st |}.

(** The state [assign_tasks] enters its loop with: loads seeded from the
    fetched workload, nothing assigned. *)
Definition initial_state (workload : gmap string Z) (ws : list Intern) : RunState :=
  {| interns := seed workload ws; assignments_made := 0;
     calls := 0%nat; output := [] |}.

Section Assign.
Variable add_to_assignees : Tracker.
Variable max_assignments : Z.

(** The [try] block: the call, then the two counters and the line. The
    result is [inl e] when the call raised [e]. *)
Definition try_assign (st : RunState) (issue : Issue)
    (best_intern : InternRef) (best_score : points)
    : GithubException + RunState :=
  match add_to_assignees (calls st) issue (username best_intern.2) with
  | Some e => inl e
  | None =>
      inr (print (Assigned issue best_intern best_score)
                 (count_assignment best_intern (sent st)))
  end.

(** The body of the outer loop for one issue. *)
Definition process_issue (st : RunState) (issue : Issue) : RunState :=
  let '(best_intern, best_score) := find_best issue (interns st) in
  match best_intern with
  | Some intern =>
      if bool_decide (0 < best_score) then
        match try_assign st issue intern best_score with
        | inr st' => st'
        | inl e =>                       (* except GithubException as e *)
            print (AssignError issue intern e) (sent st)
        end
      else print (NoSuitableIntern issue) st
  | None => print (NoSuitableIntern issue) st
  end.

(** [for issue in unassigned_issues:] with its [break]. *)
Fixpoint assign_loop (st : RunState) (issues : list Issue) : RunState :=
  match issues with
  | [] => st
  | issue :: rest =>
      if bool_decide (max_assignments ≤ assignments_made st) then st
      else assign_loop (process_issue st issue) rest
  end.

(** [assign_tasks(max_assignments)], given what the two fetches
    returned. *)
Definition assign_tasks (workload : gmap string Z)
    (unassigned_issues : list Issue) (ws : list Intern) : RunState :=
  let st := initial_state workload ws in
  match unassigned_issues with
  | [] => st                              (* "No unassigned issues found." *)
  | _ => assign_loop st (sort_by_priority unassigned_issues)
  end.
End Assign.

(** The assignments of a run, in the order they were made. *)
Definition assignments (out : list Event) : list (Issue * InternRef * points) :=
  omap (fun ev => match ev with
                  | Assigned issue intern score => Some (issue, intern, score)
                  | _ => None
                  end) out.

(** The issues the loop body has handled, in order. *)
Definition event_issue (ev : Event) : Issue :=
  match ev with
  | Assigned issue _ _ | AssignError issue _ _ | NoSuitableIntern issue => issue
  end.

(** ** [suggest_assignments] *)

Definition Suggestion : Type := InternRef * points.

(** The inner loop of [suggest_assignments] from position [i]: every
    intern is re-seeded and scored, and kept when below its limit. *)
Fixpoint suggest_scan (workload : gmap string Z) (issue : Issue) (i : nat)
    (ws : list Intern) : list Intern * list Suggestion :=
  match ws with
  | [] => ([], [])
  | w :: ws' =>
      let intern := set_current_tasks (workload_get workload (username w)) w in
      let score := calculate_task_score issue intern in
      let '(ws'', suggestions) := suggest_scan workload issue (S i) ws' in
      (intern :: ws'',
       if bool_decide (current_tasks intern < max_tasks intern)
       then ((i, intern), score) :: suggestions else suggestions)
  end.

(** [suggestions.sort(key=lambda x: x[1], reverse=True)] keeps the order
    of equal scores, like the stable sort on the negated score; then
    [suggestions[:3]]. *)
Definition top_suggestions (suggestions : list Suggestion) : list Suggestion :=
  take 3 (sort_by (fun x : Suggestion => - x.2) suggestions).

(** [suggest_assignments()]: the interns after the call and, per issue in
    iteration order, the candidates it prints. *)
Fixpoint suggest_loop (workload : gmap string Z) (ws : list Intern)
    (issues : list Issue) : list Intern * list (Issue * list Suggestion) :=
  match issues with
  | [] => (ws, [])
  | issue :: rest =>
      let '(ws', suggestions) := suggest_scan workload issue 0 ws in
      let '(ws'', printed) := suggest_loop workload ws' rest in
      (ws'', (issue, top_suggestions suggestions) :: printed)
  end.

Definition suggest_assignments (workload : gmap string Z)
    (unassigned_issues : list Issue) (ws : list Intern)
    : list Intern * list (Issue * list Suggestion) :=
  suggest_loop workload ws unassigned_issues.

(** * Vocabulary of the properties *)

Section SortVocabulary.
Context {A : Type} (key : A → Z).

Definition key_le (x y : A) : Prop := key x ≤ key y.

(** The first element with the smallest key. *)
Fixpoint first_min (l : list A) : option A :=
  match l with
  | [] => None
  | x :: l' =>
      match first_min l' with
      | Some y => if bool_decide (key x ≤ key y) then Some x else Some y
      | None => Some x
      end
  end.

End SortVocabulary.

(** How many tags of [tags] satisfy [p]. *)
Definition count_tags (p : string → bool) (tags : list string) : Z :=
  Z.of_nat (length (List.filter p tags)).

(** The item's tag set and text as the scoring reads them. *)
Definition item_tags (issue : Issue) : list string :=
  PyStr.lower <$> labels issue.

Definition item_text (issue : Issue) : string :=
  PyStr.lower (default "" (body issue)).

Definition priority_bonus (tags : list string) : points :=
  if PyStr.mem "high-priority" tags then pts_1_0
  else if PyStr.mem "medium-priority" tags then pts_0_5
  else 0.

Definition first_task_bonus (tags : list string) (load : Z) : points :=
  if PyStr.mem "good first issue" tags && bool_decide (load = 0)
  then pts_1_0 else 0.

(** The additive scheme with the skill tag compared as it is written. *)
Definition additive_score (issue : Issue) (w : Intern) : points :=
  pts_2_0 * count_tags (fun skill => PyStr.mem skill (item_tags issue)
                                     || PyStr.contains (item_text issue) skill)
                       (skills w)
  + pts_1_5 * count_tags (fun pref => PyStr.mem pref (item_tags issue))
                         (preferences w)
  + priority_bonus (item_tags issue)
  + first_task_bonus (item_tags issue) (current_tasks w).

(** The additive scheme in the specification's words: a skill tag counts
    when it is in the tag set or occurs in the body with letter case
    ignored on both sides. *)
Definition contains_ignoring_case (text tag : string) : bool :=
  PyStr.contains (PyStr.lower text) (PyStr.lower tag).

Definition spec_score (issue : Issue) (w : Intern) : points :=
  pts_2_0 * count_tags (fun skill =>
                          PyStr.mem skill (item_tags issue)
                          || contains_ignoring_case (default "" (body issue)) skill)
                       (skills w)
  + pts_1_5 * count_tags (fun pref => PyStr.mem pref (item_tags issue))
                         (preferences w)
  + priority_bonus (item_tags issue)
  + first_task_bonus (item_tags issue) (current_tasks w).

(** ** Capacity and candidates *)

Definition has_capacity (w : Intern) : Prop := current_tasks w < max_tasks w.

#[global] Instance has_capacity_dec w : Decision (has_capacity w).
Proof. unfold has_capacity. apply _. Defined.

(** The interns the inner loop scores: those below their limit, with
    their positions and scores, in iteration order. *)
Fixpoint candidates (issue : Issue) (i : nat) (ws : list Intern)
    : list Suggestion :=
  match ws with
  | [] => []
  | w :: ws' =>
      if bool_decide (has_capacity w)
      then ((i, w), calculate_task_score issue w) :: candidates issue (S i) ws'
      else candidates issue (S i) ws'
  end.

(** [if score > best_score: best_score = score; best_intern = intern] *)
Definition better (best : option InternRef * points) (c : Suggestion)
    : option InternRef * points :=
  if bool_decide (best.2 < c.2) then (Some c.1, c.2) else best.

Definition loads_ok (ws : list Intern) : Prop :=
  Forall (fun w => 0 ≤ current_tasks w ≤ max_tasks w) ws.


(** ** Ranks and orders *)

(** The rank in the specification's words: the index of the first tier of
    [priority_order] that is found among the tags, or the number of tiers
    when none is. *)
Definition first_tier_rank (tags : list string) : Z :=
  match list_find (fun tier => tier ∈ tags) priority_order with
  | Some (i, _) => Z.of_nat i
  | None => Z.of_nat (length priority_order)
  end.

(** The issues of the assignments of a run, in the order they were made. *)
Definition assigned_issues (out : list Event) : list Issue :=
  (fun a : Issue * InternRef * points => a.1.1) <$> assignments out.

(** ** Trackers and scenarios *)

Definition accept_all : Tracker := fun _ _ _ => None.

Definition forbidden : GithubException :=
  {| status := 403; message := "Forbidden" |}.


(** Refuses the first call of a run and accepts the later ones. *)
Definition reject_first : Tracker :=
  fun n _ _ => if bool_decide (n = 0%nat) then Some forbidden else None.

Module ScenarioA.
Definition A : Intern :=
  {| username := "A"; name := "A"; skills := ["python"; "ai"];
     preferences := ["lecture"]; max_tasks := 3; current_tasks := 0 |}.
Definition B : Intern :=
  {| username := "B"; name := "B"; skills := ["testing"];
     preferences := ["workshop"]; max_tasks := 3; current_tasks := 0 |}.
Definition I1 : Issue :=
  {| number := 1; title := "I1"; body := Some "intro to python and ai";
     labels := ["lecture"; "high-priority"] |}.
End ScenarioA.


Module ScenarioRetry.
(** Two issues that both suit [ScenarioA.A] best. *)
Definition J1 : Issue :=
  {| number := 11; title := "J1"; body := Some "Python notebook";
     labels := [] |}.
Definition J2 : Issue :=
  {| number := 12; title := "J2"; body := Some "python tests"; labels := [] |}.
End ScenarioRetry.


(** A workload in which both interns of scenario A are at their limit. *)
Definition full_workload : gmap string Z := <["A" := 3]> (<["B" := 3]> ∅).

(** Two runs reach matching states when everything but the wording of the
    error lines agrees. *)
Definition same_allocation (st1 st2 : RunState) : Prop :=
  interns st1 = interns st2
  ∧ assignments_made st1 = assignments_made st2
  ∧ calls st1 = calls st2
  ∧ assignments (output st1) = assignments (output st2).


Module ScenarioSuggest.
(** Two interns with room for one task each; [P] suits both issues best.
    The issue given first has the lower priority. *)
Definition P : Intern :=
  {| username := "P"; name := "P"; skills := ["python"; "ai"];
     preferences := []; max_tasks := 1; current_tasks := 0 |}.
Definition Q : Intern :=
  {| username := "Q"; name := "Q"; skills := ["python"];
     preferences := []; max_tasks := 1; current_tasks := 0 |}.
Definition K1 : Issue :=
  {| number := 21; title := "K1"; body := Some "python ai";
     labels := ["low-priority"] |}.
Definition K2 : Issue :=
  {| number := 22; title := "K2"; body := Some "python ai";
     labels := ["high-priority"] |}.
End ScenarioSuggest.

(** The claim that the suggestions foretell the run: whenever the run
    assigns an issue to an intern, that intern heads the candidates
    suggested for the issue. *)
Definition suggestions_foretell (add_to_assignees : Tracker)
    (max_assignments : Z) (workload : gmap string Z)
    (issues : list Issue) (ws : list Intern) : Prop :=
  ∀ issue r s,
    (issue, r, s) ∈ assignments (output (assign_tasks add_to_assignees
                                   max_assignments workload issues ws)) →
    ∃ top rest,
      (issue, top :: rest) ∈ (suggest_assignments workload issues ws).2
      ∧ top.1.1 = r.1.

(** What [find_best] returns, as a suggestion. *)
Definition best_suggestion (issue : Issue) (ws : list Intern)
    : option Suggestion :=
  match find_best issue ws with
  | (Some r, s) => Some (r, s)
  | (None, _) => None
  end.


Module ScenarioCase.
(** A skill tag written in upper case, and a body that names the skill in
    lower case. *)
Definition W : Intern :=
  {| username := "W"; name := "W"; skills := ["AI"];
     preferences := []; max_tasks := 3; current_tasks := 0 |}.
Definition I : Issue :=
  {| number := 31; title := "I"; body := Some "intro to ai"; labels := [] |}.
End ScenarioCase.


(** * The fetches and the directory of [assign_tasks.py] *)

(** An open issue as [self.repo.get_issues(state='open')] lists it: what
    the allocator reads of it, the logins of [issue.assignees], and whether
    [issue.pull_request] is set. *)
Record OpenIssue := mkOpenIssue {
  content : Issue;
  assignees : list string;
  pull_request : bool
}.

(** [get_unassigned_issues()]: the open issues with
    [not issue.assignees and not issue.pull_request], in listing order. *)
Definition get_unassigned_issues (open_issues : list OpenIssue) : list Issue :=
  content <$> filter (fun issue => assignees issue = [] ∧ pull_request issue = false)
                     open_issues.

(** [workload[assignee.login] += 1] on a [defaultdict(int)]. *)
Definition count_assignee (workload : gmap string Z) (login : string)
    : gmap string Z :=
  <[login := default 0 (workload !! login) + 1]> workload.

(** [get_intern_workload()]: both loops, then [dict(workload)]. *)
Definition get_intern_workload (open_issues : list OpenIssue) : gmap string Z :=
  fold_left (fun workload issue =>
               fold_left count_assignee (assignees issue) workload)
            open_issues ∅.

(** [_load_interns()]: the values of the dictionary in insertion order. *)
Definition _load_interns : list Intern :=
  [ {| username := "intern1"; name := "Intern One";
       skills := ["python"; "ai"; "lectures"];
       preferences := ["lecture"; "documentation"];
       max_tasks := 3; current_tasks := 0 |};
    {| username := "intern2"; name := "Intern Two";
       skills := ["python"; "workshops"; "testing"];
       preferences := ["workshop"; "assignment"];
       max_tasks := 3; current_tasks := 0 |};
    {| username := "intern3"; name := "Intern Three";
       skills := ["python"; "ci-cd"; "security"];
       preferences := ["documentation"; "enhancement"];
       max_tasks := 2; current_tasks := 0 |} ].

(** [assign_tasks(max_assignments)] with its two fetches: the listing the
    workload is counted from and the listing the unassigned issues are
    taken from (the tracker is asked twice). *)
Definition assign_tasks_fetching (add_to_assignees : Tracker)
    (max_assignments : Z) (workload_listing issue_listing : list OpenIssue)
    (ws : list Intern) : RunState :=
  assign_tasks add_to_assignees max_assignments
    (get_intern_workload workload_listing)
    (get_unassigned_issues issue_listing) ws.

(** [suggest_assignments()] with its two fetches. *)
Definition suggest_assignments_fetching
    (workload_listing issue_listing : list OpenIssue) (ws : list Intern)
    : list Intern * list (Issue * list Suggestion) :=
  suggest_assignments (get_intern_workload workload_listing)
    (get_unassigned_issues issue_listing) ws.

(** ** Vocabulary for the further properties *)

(** How often [user] occurs in a list of logins. *)
Definition occurrences (user : string) (logins : list string) : nat :=
  length (filter (fun login => login = user) logins).

(** Every assignee of every listed issue, in listing order. *)
Definition all_assignees (open_issues : list OpenIssue) : list string :=
  open_issues ≫= assignees.

(** The tasks the interns can still take: the room below each limit. *)
Definition spare (ws : list Intern) : Z :=
  foldr (fun w acc => Z.max 0 (max_tasks w - current_tasks w) + acc) 0 ws.

(** The assignments of a run that went to the intern at position [i]. *)
Definition assigned_to (i : nat) (out : list Event) : nat :=
  length (filter (fun a : Issue * InternRef * points => a.1.2.1 = i)
                 (assignments out)).

(** The lines that follow a call of [add_to_assignees]. *)
Definition is_call (ev : Event) : bool :=
  match ev with
  | Assigned _ _ _ | AssignError _ _ _ => true
  | NoSuitableIntern _ => false
  end.

(** An intern with its load erased: what the directory says about it. *)
Definition directory_entry (w : Intern) : Intern := set_current_tasks 0 w.

(** The loads of a run relative to the loads it started from: nothing but
    the load differs, and the load has grown, by no more than the room the
    intern had. *)
Definition grown (w0 w : Intern) : Prop :=
  directory_entry w = directory_entry w0
  ∧ current_tasks w0 ≤ current_tasks w
  ∧ current_tasks w ≤ Z.max (current_tasks w0) (max_tasks w0).


(** An assignment is sound for a run on [issues] and [ws] when its issue
    is one of [issues], its intern is the one at that position of [ws] (up
    to the load), had room when it was chosen, and the score is that
    intern's score on the issue, above 0. *)
Definition sound_assignment (issues : list Issue) (ws : list Intern)
    (a : Issue * InternRef * points) : Prop :=
  a.1.1 ∈ issues
  ∧ directory_entry <$> ws !! a.1.2.1 = Some (directory_entry a.1.2.2)
  ∧ has_capacity a.1.2.2
  ∧ a.2 = calculate_task_score a.1.1 a.1.2.2
  ∧ 0 < a.2.

(** The issue carries a label that reads high-priority or medium-priority
    once lower-cased. *)
Definition has_priority_label (issue : Issue) : Prop :=
  "high-priority" ∈ item_tags issue ∨ "medium-priority" ∈ item_tags issue.


Module ScenarioListing.
(** A listing with an unassigned issue, an issue that already has an
    assignee, and a pull request. *)
Definition listing : list OpenIssue :=
  [ {| content := ScenarioA.I1; assignees := []; pull_request := false |};
    {| content := ScenarioRetry.J1; assignees := ["B"]; pull_request := false |};
    {| content := ScenarioRetry.J2; assignees := []; pull_request := true |} ].
End ScenarioListing.


(** Nothing of the issue speaks for the intern: no skill tag is among the
    lower-cased labels or in the lower-cased body, no preference tag is
    among the labels, the issue has no priority label, and the first-task
    bonus does not apply. *)
Definition nothing_matches (issue : Issue) (w : Intern) : Prop :=
  Forall (fun skill => (skill ∉ item_tags issue)
                       ∧ PyStr.contains (item_text issue) skill = false)
         (skills w)
  ∧ Forall (fun pref => pref ∉ item_tags issue) (preferences w)
  ∧ ¬ has_priority_label issue
  ∧ ¬ ("good first issue" ∈ item_tags issue ∧ current_tasks w = 0).

Module ScenarioC.
(** Two interns alike but for the load, and a good first issue. *)
Definition D : Intern :=
  {| username := "D"; name := "D"; skills := ["python"];
     preferences := []; max_tasks := 3; current_tasks := 0 |}.
Definition E : Intern :=
  {| username := "E"; name := "E"; skills := ["python"];
     preferences := []; max_tasks := 3; current_tasks := 2 |}.
Definition I3 : Issue :=
  {| number := 3; title := "I3"; body := Some "python basics";
     labels := ["Good First Issue"] |}.
End ScenarioC.


(** * [get_sprint_issues] of [create_sprint_board.py] *)

(** An open issue as [get_sprint_issues] reads it: title and labels, and
    [issue.milestone.title] when the issue has a milestone. *)
Record BoardIssue := mkBoardIssue {
  board_issue : Issue;
  milestone : option string
}.

(** The test of the [if] in [get_sprint_issues]. *)
Definition in_sprint (sprint_name : string) (issue : BoardIssue) : bool :=
  let issue_labels := map PyStr.lower (labels (board_issue issue)) in
  PyStr.mem (PyStr.lower sprint_name) issue_labels
  || PyStr.contains (PyStr.lower (title (board_issue issue)))
                    (PyStr.lower sprint_name)
  || match milestone issue with
     | Some milestone_title =>
         PyStr.contains (PyStr.lower milestone_title) (PyStr.lower sprint_name)
     | None => false
     end.

(** [get_sprint_issues(sprint_name)] over the listed open issues. *)
Definition get_sprint_issues (sprint_name : string)
    (open_issues : list BoardIssue) : list BoardIssue :=
  filter (fun issue => in_sprint sprint_name issue = true) open_issues.

Module ScenarioWords.
(** The skill [ai] and a body in which these letters occur inside a
    word. *)
Definition M : Intern :=
  {| username := "M"; name := "M"; skills := ["ai"];
     preferences := []; max_tasks := 3; current_tasks := 1 |}.
Definition I : Issue :=
  {| number := 41; title := "I"; body := Some "Maintain the build";
     labels := [] |}.
(** An issue of week 10, for the board of week 1. *)
Definition W10 : BoardIssue :=
  {| board_issue := {| number := 110; title := "Week 10: agents"; body := None;
                       labels := [] |};
     milestone := None |}.
End ScenarioWords.


(** * [assign_tasks] against a tracker that can raise anything *)

(** What a call of [issue.add_to_assignees] can raise: the tracker's own
    [GithubException], which the [except] clause of [assign_tasks]
    catches, or an exception of another class (a network failure, say),
    which it does not catch. *)
Inductive Raised :=
  | TrackerError (e : GithubException)
  | OtherError (description : string).

(** The answer to the [n]-th call: [None] when it returns, [Some r] when
    it raises [r]. *)
Definition RaisingTracker : Type := nat → Issue → string → option Raised.

(** How [assign_tasks] ends: it returns, or an exception it does not catch
    leaves it, with the state reached by then. *)
Inductive Outcome :=
  | Returned (st : RunState)
  | Uncaught (description : string) (st : RunState).

Definition final_state (o : Outcome) : RunState :=
  match o with
  | Returned st | Uncaught _ st => st
  end.

Section AssignRaising.
Variable add_to_assignees : RaisingTracker.
Variable max_assignments : Z.

(** The body of the outer loop: as [process_issue], with the [try] block
    left by an exception the [except GithubException] clause does not
    match. *)
Definition process_issue_raising (st : RunState) (issue : Issue) : Outcome :=
  let '(best_intern, best_score) := find_best issue (interns st) in
  match best_intern with
  | Some intern =>
      if bool_decide (0 < best_score) then
        match add_to_assignees (calls st) issue (username intern.2) with
        | None =>
            Returned (print (Assigned issue intern best_score)
                            (count_assignment intern (sent st)))
        | Some (TrackerError e) =>         (* except GithubException as e *)
            Returned (print (AssignError issue intern e) (sent st))
        | Some (OtherError description) => (* not caught *)
            Uncaught description (sent st)
        end
      else Returned (print (NoSuitableIntern issue) st)
  | None => Returned (print (NoSuitableIntern issue) st)
  end.

(** The outer loop: an exception that leaves the body leaves the loop. *)
Fixpoint assign_loop_raising (st : RunState) (issues : list Issue) : Outcome :=
  match issues with
  | [] => Returned st
  | issue :: rest =>
      if bool_decide (max_assignments ≤ assignments_made st) then Returned st
      else match process_issue_raising st issue with
           | Returned st' => assign_loop_raising st' rest
           | Uncaught description st' => Uncaught description st'
           end
  end.

Definition assign_tasks_raising (workload : gmap string Z)
    (unassigned_issues : list Issue) (ws : list Intern) : Outcome :=
  let st := initial_state workload ws in
  match unassigned_issues with
  | [] => Returned st
  | _ => assign_loop_raising st (sort_by_priority unassigned_issues)
  end.
End AssignRaising.

(** A tracker that raises nothing but its own error, as a raising
    tracker. *)
Definition only_tracker_errors (add_to_assignees : Tracker) : RaisingTracker :=
  fun n issue user => TrackerError <$> add_to_assignees n issue user.

(** A tracker whose first call fails on the network and whose later calls
    return. *)
Definition network_down_first : RaisingTracker :=
  fun n _ _ => if bool_decide (n = 0%nat)
               then Some (OtherError "ConnectionError") else None.

(** The claim that a failed commit is survived: whenever the call for the
    selected intern raises, the loop body returns, with the loads and the
    assignments it had, and the loop goes on with the next issue. *)
Definition commit_failure_survived (add_to_assignees : RaisingTracker)
    (max_assignments : Z) (st : RunState) (issue : Issue)
    (rest : list Issue) : Prop :=
  ∀ r s raised,
    find_best issue (interns st) = (Some r, s) → 0 < s →
    add_to_assignees (calls st) issue (username r.2) = Some raised →
    ∃ st', process_issue_raising add_to_assignees st issue = Returned st'
           ∧ interns st' = interns st
           ∧ assignments (output st') = assignments (output st)
           ∧ assign_loop_raising add_to_assignees max_assignments st
               (issue :: rest)
             = assign_loop_raising add_to_assignees max_assignments st' rest.

(** ** The claimed rank and selection *)

(** The rank as the claim has it, on the case-normalized tags of the
    issue, and the order it gives. *)
Definition claimed_rank (issue : Issue) : Z :=
  first_tier_rank (item_tags issue).

Definition claimed_order (issues : list Issue) : list Issue :=
  sort_by claimed_rank issues.

Module ScenarioRank.
(** An issue whose priority label is written with capitals, listed before
    a low-priority issue. *)
Definition C1 : Issue :=
  {| number := 51; title := "c1"; body := Some "python";
     labels := ["High-Priority"] |}.
Definition C2 : Issue :=
  {| number := 52; title := "c2"; body := Some "python";
     labels := ["low-priority"] |}.
End ScenarioRank.

(** The intern at position [k] is the first, in iteration order, of the
    interns below their limit with the greatest score on the issue. *)
Definition first_greatest (issue : Issue) (ws : list Intern)
    (k : nat) (w : Intern) : Prop :=
  ws !! k = Some w ∧ has_capacity w
  ∧ ∀ k' w', ws !! k' = Some w' → has_capacity w' →
      calculate_task_score issue w' ≤ calculate_task_score issue w
      ∧ ((k' < k)%nat →
         calculate_task_score issue w' < calculate_task_score issue w).

(** ** ASCII text *)

(** [str.isascii]: every character is below 128. On such text
    [PyStr.lower] is [str.lower]. *)
Fixpoint is_ascii (s : string) : bool :=
  match s with
  | EmptyString => true
  | String c s' => bool_decide (nat_of_ascii c < 128)%nat && is_ascii s'
  end.

(** The texts [get_sprint_issues] lowers of an issue are ASCII. *)
Definition ascii_board_issue (issue : BoardIssue) : Prop :=
  is_ascii (title (board_issue issue)) = true
  ∧ Forall (fun label => is_ascii label = true) (labels (board_issue issue))
  ∧ ∀ milestone_title, milestone issue = Some milestone_title →
                       is_ascii milestone_title = true.

(** * Properties *)

(** ** The stable sort *)

Section StableSortFacts.
Context {A : Type} (key : A → Z).

Lemma insert_by_perm x l : insert_by key x l ≡ₚ x :: l.
Proof.
  induction l as [|y l IH]; simpl; [done|].
  case_bool_decide; [done|].
  rewrite IH. apply Permutation_swap.
Qed.

Lemma sort_by_perm l : sort_by key l ≡ₚ l.
Proof.
  induction l as [|x l IH]; simpl; [done|].
  by rewrite insert_by_perm, IH.
Qed.

Lemma insert_by_sorted x l :
  StronglySorted (key_le key) l → StronglySorted (key_le key) (insert_by key x l).
Proof.
  induction 1 as [|y l Hl IH Hy]; simpl.
  - repeat constructor.
  - case_bool_decide as Hxy.
    + constructor; [by constructor|].
      constructor; [done|].
      eapply Forall_impl; [exact Hy|]. unfold key_le. intros z ?. lia.
    + constructor; [done|].
      rewrite insert_by_perm. constructor; [unfold key_le; lia | done].
Qed.

Lemma sort_by_sorted l : StronglySorted (key_le key) (sort_by key l).
Proof.
  induction l; simpl; [constructor | by apply insert_by_sorted].
Qed.

(** Stability: the elements of any one key come out in the order they
    went in. *)
Lemma insert_by_filter_key k x l :
  filter (fun y => key y = k) (insert_by key x l)
  = filter (fun y => key y = k) (x :: l).
Proof.
  induction l as [|y l IH]; simpl; [done|].
  case_bool_decide as Hxy; [done|].
  rewrite !filter_cons in *.
  destruct (decide (key y = k)), (decide (key x = k)); try lia;
    by rewrite IH.
Qed.

Lemma sort_by_filter_key k l :
  filter (fun y => key y = k) (sort_by key l)
  = filter (fun y => key y = k) l.
Proof.
  induction l as [|x l IH]; simpl; [done|].
  by rewrite insert_by_filter_key, !filter_cons, IH.
Qed.

Lemma head_insert_by x l :
  head (insert_by key x l)
  = match head l with
    | Some y => if bool_decide (key x ≤ key y) then Some x else Some y
    | None => Some x
    end.
Proof. destruct l as [|y l]; simpl; [done|]. by case_bool_decide. Qed.

Lemma head_sort_by l : head (sort_by key l) = first_min key l.
Proof.
  induction l as [|x l IH]; simpl; [done|].
  by rewrite head_insert_by, IH.
Qed.

Lemma first_min_split l x :
  first_min key l = Some x →
  ∃ l1 l2, l = l1 ++ x :: l2
           ∧ Forall (fun y => key x < key y) l1
           ∧ Forall (fun y => key x ≤ key y) l2.
Proof.
  revert x. induction l as [|y l IH]; intros x; simpl; [done|].
  destruct (first_min key l) as [z|] eqn:Hz.
  - destruct (IH z eq_refl) as (l1 & l2 & -> & H1 & H2).
    case_bool_decide as Hyz; intros [= <-].
    + exists [], (l1 ++ z :: l2). repeat split; [constructor|].
      rewrite Forall_app, Forall_cons. repeat split; [|lia|].
      * eapply Forall_impl; [exact H1|]. simpl. intros. lia.
      * eapply Forall_impl; [exact H2|]. simpl. intros. lia.
    + exists (y :: l1), l2. repeat split; [|done].
      constructor; [lia|done].
  - intros [= <-]. destruct l as [|z l].
    2: { simpl in Hz. destruct (first_min key l); [case_bool_decide|]; done. }
    exists [], []. repeat split; constructor.
Qed.
End StableSortFacts.

Section StableSortUnique.
Context {A : Type} (key : A → Z).

Lemma filter_key_nil (l : list A) :
  (∀ k, filter (fun y => key y = k) l = []) → l = [].
Proof.
  destruct l as [|y l]; [done|]. intros H. specialize (H (key y)).
  rewrite filter_cons in H. by destruct (decide (key y = key y)).
Qed.

Lemma filter_key_above k (l : list A) :
  Forall (fun y => k < key y) l → filter (fun y => key y = k) l = [].
Proof.
  induction 1 as [|y l Hy _ IH]; [done|].
  rewrite filter_cons. destruct (decide (key y = k)); [lia|done].
Qed.

(** A list sorted by key is determined by its elements of each key in
    their order: every stable sort returns what [sort_by] returns. *)
Lemma stable_sorted_unique (l1 l2 : list A) :
  StronglySorted (key_le key) l1 → StronglySorted (key_le key) l2 →
  (∀ k, filter (fun y => key y = k) l1 = filter (fun y => key y = k) l2) →
  l1 = l2.
Proof.
  intros H1. revert l2.
  induction H1 as [|x t1 Ht1 IH Hx]; intros l2 H2 Heq.
  - symmetry. apply filter_key_nil. intros k. by rewrite <- Heq.
  - destruct H2 as [|y t2 Ht2 Hy].
    { exfalso. specialize (Heq (key x)). rewrite filter_cons in Heq.
      by destruct (decide (key x = key x)). }
    assert (key x = key y) as Hk.
    { destruct (Z.lt_trichotomy (key x) (key y)) as [Hlt|[?|Hlt]]; [|done|].
      - specialize (Heq (key x)).
        rewrite (filter_key_above (key x) (y :: t2)) in Heq.
        + rewrite filter_cons in Heq. by destruct (decide (key x = key x)).
        + constructor; [done|]. eapply Forall_impl; [exact Hy|].
          unfold key_le. simpl. intros. lia.
      - specialize (Heq (key y)).
        rewrite (filter_key_above (key y) (x :: t1)) in Heq.
        + rewrite filter_cons in Heq. by destruct (decide (key y = key y)).
        + constructor; [done|]. eapply Forall_impl; [exact Hx|].
          unfold key_le. simpl. intros. lia. }
    pose proof (Heq (key x)) as Hhd. rewrite !filter_cons in Hhd.
    destruct (decide (key x = key x)); [|done].
    destruct (decide (key y = key x)); [|lia].
    injection Hhd as -> Htl. f_equal. apply IH; [done|]. intros k.
    destruct (decide (k = key y)) as [->|Hne]; [done|].
    specialize (Heq k). rewrite !filter_cons in Heq.
    destruct (decide (key y = k)); [lia|done].
Qed.

Lemma sort_by_unique (l l' : list A) :
  StronglySorted (key_le key) l' →
  (∀ k, filter (fun y => key y = k) l' = filter (fun y => key y = k) l) →
  l' = sort_by key l.
Proof.
  intros Hs Hf. apply stable_sorted_unique; [done|apply sort_by_sorted|].
  intros k. by rewrite Hf, sort_by_filter_key.
Qed.
End StableSortUnique.

(** ** Scoring *)

Lemma lower_empty_body (b : string) :
  (if bool_decide (b = "") then "" else PyStr.lower b) = PyStr.lower b.
Proof. case_bool_decide as H; [by rewrite H|done]. Qed.

Lemma fold_left_add_if (p : string → bool) (c : Z) (tags : list string) (acc : Z) :
  fold_left (fun score tag => if p tag then score + c else score) tags acc
  = acc + c * count_tags p tags.
Proof.
  unfold count_tags. revert acc.
  induction tags as [|t tags IH]; intros acc; simpl; [lia|].
  rewrite IH. destruct (p t); simpl length; lia.
Qed.

Lemma count_tags_nonneg p tags : 0 ≤ count_tags p tags.
Proof. unfold count_tags. lia. Qed.

Lemma calculate_task_score_additive issue w :
  calculate_task_score issue w = additive_score issue w.
Proof.
  unfold calculate_task_score, additive_score, priority_bonus,
    first_task_bonus, item_text, item_tags.
  rewrite !fold_left_add_if.
  replace (match body issue with
           | Some b => if bool_decide (b = "") then "" else PyStr.lower b
           | None => ""
           end) with (PyStr.lower (default "" (body issue))).
  2: { destruct (body issue) as [b|]; simpl; [by rewrite lower_empty_body|done]. }
  assert (∀ tags, count_tags
            (fun skill => PyStr.contains (PyStr.lower (default "" (body issue))) skill
                          || PyStr.mem skill (PyStr.lower <$> labels issue)) tags
          = count_tags
            (fun skill => PyStr.mem skill (PyStr.lower <$> labels issue)
                          || PyStr.contains (PyStr.lower (default "" (body issue))) skill) tags)
    as ->.
  { intros tags. unfold count_tags. do 2 f_equal.
    apply List.filter_ext. intros. apply orb_comm. }
  change (map PyStr.lower (labels issue)) with (PyStr.lower <$> labels issue).
  repeat match goal with |- context [if ?b then _ else _] => destruct b end;
    lia.
Qed.

Lemma calculate_task_score_nonneg issue w : 0 ≤ calculate_task_score issue w.
Proof.
  rewrite calculate_task_score_additive.
  unfold additive_score, priority_bonus, first_task_bonus,
    pts_2_0, pts_1_5, pts_1_0, pts_0_5.
  pose proof (count_tags_nonneg
    (fun skill => PyStr.mem skill (item_tags issue)
                  || PyStr.contains (item_text issue) skill) (skills w)).
  pose proof (count_tags_nonneg
    (fun pref => PyStr.mem pref (item_tags issue)) (preferences w)).
  repeat match goal with |- context [if ?b then _ else _] => destruct b end;
    lia.
Qed.

Lemma additive_score_lower_skills issue w :
  Forall (fun skill => PyStr.lower skill = skill) (skills w) →
  additive_score issue w = spec_score issue w.
Proof.
  intros Hlow. unfold additive_score, spec_score, count_tags.
  rewrite (List.filter_ext_in
             (fun skill => PyStr.mem skill (item_tags issue)
                           || PyStr.contains (item_text issue) skill)
             (fun skill => PyStr.mem skill (item_tags issue)
                           || contains_ignoring_case (default "" (body issue)) skill));
    [done|].
  intros skill Hin.
  rewrite Forall_forall in Hlow. apply list_elem_of_In, Hlow in Hin.
  unfold contains_ignoring_case, item_text. by rewrite Hin.
Qed.

(** ** Choosing the best intern *)

Lemma scan_interns_candidates issue ws : ∀ i best,
  scan_interns issue i ws best = fold_left better (candidates issue i ws) best.
Proof.
  induction ws as [|w ws IH]; intros i best; simpl; [done|].
  rewrite IH. unfold has_capacity.
  destruct (decide (max_tasks w ≤ current_tasks w)) as [Hfull|Hfree].
  - rewrite (bool_decide_eq_true_2 (max_tasks w ≤ current_tasks w)) by done.
    rewrite (bool_decide_eq_false_2 (current_tasks w < max_tasks w)) by lia.
    done.
  - rewrite (bool_decide_eq_false_2 (max_tasks w ≤ current_tasks w)) by done.
    rewrite (bool_decide_eq_true_2 (current_tasks w < max_tasks w)) by lia.
    done.
Qed.

Lemma candidates_app issue ws1 ws2 : ∀ i,
  candidates issue i (ws1 ++ ws2)
  = candidates issue i ws1 ++ candidates issue (i + length ws1) ws2.
Proof.
  induction ws1 as [|w ws1 IH]; intros i; simpl.
  - by rewrite Nat.add_0_r.
  - rewrite IH. replace (S i + length ws1)%nat with (i + S (length ws1))%nat by lia.
    by case_bool_decide.
Qed.

Lemma candidates_full issue ws : ∀ i,
  Forall (fun w => ¬ has_capacity w) ws → candidates issue i ws = [].
Proof.
  induction ws as [|w ws IH]; intros i Hfull; simpl; [done|].
  inversion Hfull; subst. case_bool_decide; [done|]. by apply IH.
Qed.

Lemma candidates_score issue ws : ∀ i c,
  c ∈ candidates issue i ws →
  ws !! (c.1.1 - i)%nat = Some c.1.2 ∧ (i ≤ c.1.1)%nat
  ∧ has_capacity c.1.2 ∧ c.2 = calculate_task_score issue c.1.2.
Proof.
  induction ws as [|w ws IH]; intros i c; simpl; [by intros ?%elem_of_nil|].
  assert (c ∈ candidates issue (S i) ws →
          (w :: ws) !! (c.1.1 - i)%nat = Some c.1.2 ∧ (i ≤ c.1.1)%nat
          ∧ has_capacity c.1.2 ∧ c.2 = calculate_task_score issue c.1.2) as Htl.
  { intros (Hl & Hi & Hc & Hs)%IH. repeat split; [|lia|done|done].
    replace (c.1.1 - i)%nat with (S (c.1.1 - S i)) by lia. done. }
  case_bool_decide as Hw; [|done].
  intros [->|Hin]%elem_of_cons; [|by apply Htl]. simpl.
  rewrite Nat.sub_diag. done.
Qed.

(** The loop returns the first of the candidates with the greatest score
    when that score beats the one it started from. *)
Lemma fold_better_first_min (cs : list Suggestion) : ∀ best,
  fold_left better cs best
  = match first_min (fun c : Suggestion => - c.2) cs with
    | Some d => better best d
    | None => best
    end.
Proof.
  induction cs as [|c cs IH]; intros best; simpl; [done|].
  rewrite IH. destruct (first_min _ cs) as [d|]; [|done].
  unfold better. repeat case_bool_decide; simpl in *; try lia; done.
Qed.

(** Positions: what the loop returns is the first intern, in iteration
    order, among those below their limit whose score is greatest. *)
Lemma scan_interns_spec issue ws : ∀ i best,
  (scan_interns issue i ws best = best
   ∧ ∀ k w, ws !! k = Some w → has_capacity w →
            calculate_task_score issue w ≤ best.2)
  ∨ (∃ k w, ws !! k = Some w ∧ has_capacity w
            ∧ scan_interns issue i ws best
              = (Some ((i + k)%nat, w), calculate_task_score issue w)
            ∧ best.2 < calculate_task_score issue w
            ∧ ∀ k' w', ws !! k' = Some w' → has_capacity w' →
                calculate_task_score issue w' ≤ calculate_task_score issue w
                ∧ ((k' < k)%nat →
                   calculate_task_score issue w' < calculate_task_score issue w)).
Proof.
  induction ws as [|w0 ws IH]; intros i best; simpl.
  { left. split; [done|]. intros k w Hk. by rewrite lookup_nil in Hk. }
  set (best' := if bool_decide (max_tasks w0 ≤ current_tasks w0) then best
                else if bool_decide (best.2 < calculate_task_score issue w0)
                     then (Some (i, w0), calculate_task_score issue w0)
                     else best).
  assert (best.2 ≤ best'.2) as Hmono.
  { subst best'. repeat case_bool_decide; simpl; lia. }
  assert (has_capacity w0 → calculate_task_score issue w0 ≤ best'.2) as Hw0.
  { unfold has_capacity. subst best'. repeat case_bool_decide; simpl; lia. }
  destruct (IH (S i) best') as [[Heq Hall]|(k & w & Hk & Hc & Heq & Hlt & Hall)].
  - rewrite Heq.
    destruct (decide (best' = best)) as [Hb|Hb].
    + left. split; [done|]. intros [|k] w Hk Hc; simpl in Hk.
      * injection Hk as <-. rewrite <- Hb. by apply Hw0.
      * rewrite <- Hb. by eapply Hall.
    + right. exists 0%nat, w0.
      assert (has_capacity w0 ∧ best.2 < calculate_task_score issue w0
              ∧ best' = (Some (i, w0), calculate_task_score issue w0))
        as (Hc0 & Hlt0 & Hb').
      { unfold has_capacity. subst best'.
        repeat case_bool_decide; try done; repeat split; lia. }
      rewrite Nat.add_0_r.
      split; [done|]. split; [done|]. split; [done|]. split; [done|].
      intros [|k'] w' Hk' Hc'; simpl in Hk'.
      * injection Hk' as <-. split; [lia|]. intros ?. lia.
      * split; [|intros ?; lia]. rewrite Hb' in Hall. by eapply Hall.
  - right. exists (S k), w. rewrite Heq.
    replace (i + S k)%nat with (S i + k)%nat by lia.
    split; [done|]. split; [done|]. split; [done|]. split; [lia|].
    intros [|k'] w' Hk' Hc'; simpl in Hk'.
    + injection Hk' as <-. specialize (Hw0 Hc'). split; [lia|]. intros _. lia.
    + split; [by eapply Hall|]. intros Hlt'. eapply Hall; [done..|lia].
Qed.

Lemma find_best_spec issue ws :
  (find_best issue ws = (None, -2) ∧ Forall (fun w => ¬ has_capacity w) ws)
  ∨ (∃ k w, ws !! k = Some w ∧ has_capacity w
            ∧ find_best issue ws = (Some (k, w), calculate_task_score issue w)
            ∧ ∀ k' w', ws !! k' = Some w' → has_capacity w' →
                calculate_task_score issue w' ≤ calculate_task_score issue w
                ∧ ((k' < k)%nat →
                   calculate_task_score issue w' < calculate_task_score issue w)).
Proof.
  unfold find_best.
  destruct (scan_interns_spec issue ws 0 (None, -2))
    as [[Heq Hall]|(k & w & Hk & Hc & Heq & _ & Hall)].
  - left. split; [done|]. apply Forall_forall. intros w Hw Hc.
    apply list_elem_of_lookup in Hw as [k Hk].
    specialize (Hall k w Hk Hc). simpl in Hall.
    pose proof (calculate_task_score_nonneg issue w). lia.
  - right. exists k, w. by rewrite Heq.
Qed.

Lemma find_best_some issue ws r s :
  find_best issue ws = (Some r, s) →
  ws !! r.1 = Some r.2 ∧ has_capacity r.2
  ∧ s = calculate_task_score issue r.2.
Proof.
  destruct (find_best_spec issue ws)
    as [[Heq _]|(k & w & Hk & Hc & Heq & _)]; rewrite Heq.
  - done.
  - by intros [= <- <-].
Qed.

(** ** The greedy loop *)

Lemma bump_loads_ok r ws :
  ws !! r.1 = Some r.2 → has_capacity r.2 → loads_ok ws → loads_ok (bump r ws).
Proof.
  unfold loads_ok, bump, has_capacity. intros Hr Hc Hok.
  apply Forall_alter; [done|]. intros w Hw Hw'. simpl.
  rewrite Hr in Hw. injection Hw as <-. lia.
Qed.

Lemma assignments_app out1 out2 :
  assignments (out1 ++ out2) = assignments out1 ++ assignments out2.
Proof. apply omap_app. Qed.

Section AssignFacts.
Variable add_to_assignees : Tracker.
Variable max_assignments : Z.

#[local] Abbreviation process_issue := (process_issue add_to_assignees).
#[local] Abbreviation assign_loop := (assign_loop add_to_assignees max_assignments).

(** The three ways the loop body can end. *)
Lemma process_issue_cases st issue :
  (((find_best issue (interns st)).1 = None
     ∨ (find_best issue (interns st)).2 ≤ 0)
   ∧ process_issue st issue = print (NoSuitableIntern issue) st)
  ∨ (∃ r s, find_best issue (interns st) = (Some r, s) ∧ 0 < s
       ∧ ((add_to_assignees (calls st) issue (username r.2) = None
           ∧ process_issue st issue
             = print (Assigned issue r s) (count_assignment r (sent st)))
          ∨ (∃ e, add_to_assignees (calls st) issue (username r.2) = Some e
                  ∧ process_issue st issue
                    = print (AssignError issue r e) (sent st)))).
Proof.
  unfold process_issue, try_assign.
  destruct (find_best issue (interns st)) as [[r|] s]; simpl.
  - case_bool_decide as Hs.
    + right. exists r, s. split; [done|]. split; [done|].
      destruct (add_to_assignees _ _ _) as [e|]; [right; by exists e|by left].
    + left. split; [right; lia|done].
  - left. split; [by left|done].
Qed.

Lemma process_issue_accepted st issue r s :
  find_best issue (interns st) = (Some r, s) → 0 < s →
  add_to_assignees (calls st) issue (username r.2) = None →
  process_issue st issue
  = print (Assigned issue r s) (count_assignment r (sent st)).
Proof.
  intros Hb Hs Hok. unfold process_issue, try_assign.
  rewrite Hb, Hok. by rewrite bool_decide_eq_true_2.
Qed.

Lemma process_issue_loads_ok st issue :
  loads_ok (interns st) → loads_ok (interns (process_issue st issue)).
Proof.
  intros Hok.
  destruct (process_issue_cases st issue)
    as [[_ ->]|(r & s & Hb & _ & [[_ ->]|(e & _ & ->)])]; simpl; try done.
  apply find_best_some in Hb as (Hr & Hc & _). by apply bump_loads_ok.
Qed.

Lemma assign_loop_loads_ok issues : ∀ st,
  loads_ok (interns st) → loads_ok (interns (assign_loop st issues)).
Proof.
  induction issues as [|issue rest IH]; intros st Hok; simpl; [done|].
  case_bool_decide; [done|]. by apply IH, process_issue_loads_ok.
Qed.

(** Once the loop has stopped it stays stopped, so running it over a
    list is running it over a prefix and then over the rest. *)
Lemma process_issue_made_mono st issue :
  assignments_made st ≤ assignments_made (process_issue st issue).
Proof.
  destruct (process_issue_cases st issue)
    as [[_ ->]|(r & s & _ & _ & [[_ ->]|(e & _ & ->)])]; simpl; lia.
Qed.

Lemma assign_loop_made_mono issues : ∀ st,
  assignments_made st ≤ assignments_made (assign_loop st issues).
Proof.
  induction issues as [|issue rest IH]; intros st; simpl; [lia|].
  case_bool_decide; [lia|].
  etrans; [apply (process_issue_made_mono st issue)|apply IH].
Qed.

Lemma assign_loop_stopped st issues :
  max_assignments ≤ assignments_made st → assign_loop st issues = st.
Proof.
  intros Hmax. destruct issues; simpl; [done|].
  by rewrite bool_decide_eq_true_2.
Qed.

Lemma assign_loop_app pre post : ∀ st,
  assign_loop st (pre ++ post) = assign_loop (assign_loop st pre) post.
Proof.
  induction pre as [|issue pre IH]; intros st; simpl; [done|].
  case_bool_decide as Hmax; [by rewrite assign_loop_stopped|apply IH].
Qed.

(** The counter is the number of assignments printed. *)
Lemma process_issue_made st issue :
  assignments_made st = Z.of_nat (length (assignments (output st))) →
  assignments_made (process_issue st issue)
  = Z.of_nat (length (assignments (output (process_issue st issue)))).
Proof.
  intros Hinv.
  destruct (process_issue_cases st issue)
    as [[_ ->]|(r & s & _ & _ & [[_ ->]|(e & _ & ->)])]; simpl;
    rewrite assignments_app, length_app; simpl; lia.
Qed.

Lemma assign_loop_made issues : ∀ st,
  assignments_made st = Z.of_nat (length (assignments (output st))) →
  assignments_made (assign_loop st issues)
  = Z.of_nat (length (assignments (output (assign_loop st issues)))).
Proof.
  induction issues as [|issue rest IH]; intros st Hinv; simpl; [done|].
  case_bool_decide; [done|]. by apply IH, process_issue_made.
Qed.

Lemma process_issue_made_le st issue :
  assignments_made st < max_assignments →
  assignments_made (process_issue st issue) ≤ max_assignments.
Proof.
  intros Hlt.
  destruct (process_issue_cases st issue)
    as [[_ ->]|(r & s & _ & _ & [[_ ->]|(e & _ & ->)])]; simpl; lia.
Qed.

Lemma assign_loop_made_le issues : ∀ st,
  assignments_made st ≤ Z.max 0 max_assignments →
  assignments_made (assign_loop st issues) ≤ Z.max 0 max_assignments.
Proof.
  induction issues as [|issue rest IH]; intros st Hle; simpl; [done|].
  case_bool_decide as Hmax; [done|]. apply IH.
  pose proof (process_issue_made_le st issue). lia.
Qed.
End AssignFacts.

(** * The claims *)

(** Loads of a concrete list of interns are checked one by one. *)
Ltac solve_loads_ok :=
  unfold loads_ok;
  match goal with
  | |- Forall ?P ?l => let l' := eval vm_compute in l in change (Forall P l')
  end;
  repeat (apply Forall_cons_2; [simpl; lia|]); apply Forall_nil_2.

(** ** C1: capacity *)

(** C1. A worker whose load has reached its capacity is never a candidate:
    the worker the inner loop returns is below its limit, and the result
    does not change when a full worker is replaced by any other full
    worker, whatever its skills and preferences score. Consequently, if
    every seeded load lies between 0 and the capacity, so does every load
    in the state the loop has reached after any number [k] of issues (the
    states before and after each assignment), and at the end of the run. *)
Theorem capacity_respected :
  (∀ issue ws r s,
     find_best issue ws = (Some r, s) →
     ws !! r.1 = Some r.2 ∧ current_tasks r.2 < max_tasks r.2)
  ∧ (∀ issue ws1 w w' ws2,
       max_tasks w ≤ current_tasks w → max_tasks w' ≤ current_tasks w' →
       find_best issue (ws1 ++ w :: ws2) = find_best issue (ws1 ++ w' :: ws2))
  ∧ (∀ add_to_assignees max_assignments workload issues ws,
       loads_ok (seed workload ws) →
       (∀ k, loads_ok (interns (assign_loop add_to_assignees max_assignments
                                  (initial_state workload ws)
                                  (take k (sort_by_priority issues)))))
       ∧ loads_ok (interns (assign_tasks add_to_assignees max_assignments
                              workload issues ws))).
Proof.
  split; [|split].
  - intros issue ws r s Hb. apply find_best_some in Hb as (? & ? & _). done.
  - intros issue ws1 w w' ws2 Hw Hw'. unfold find_best.
    rewrite !scan_interns_candidates, !candidates_app. simpl.
    unfold has_capacity. by rewrite !bool_decide_eq_false_2 by lia.
  - intros tracker max workload issues ws Hseed. split.
    + intros k. by apply assign_loop_loads_ok.
    + unfold assign_tasks. destruct issues; [done|].
      by apply assign_loop_loads_ok.
Qed.

Lemma capacity_respected_witness :
  loads_ok (seed ∅ [ScenarioA.A; ScenarioA.B])
  ∧ loads_ok (interns (assign_tasks accept_all 10 ∅ [ScenarioA.I1]
                         [ScenarioA.A; ScenarioA.B])).
Proof.
  assert (loads_ok (seed ∅ [ScenarioA.A; ScenarioA.B])) as Hseed.
  { solve_loads_ok. }
  split; [exact Hseed|].
  exact (proj2 (proj2 (proj2 capacity_respected) accept_all 10 ∅
                  [ScenarioA.I1] [ScenarioA.A; ScenarioA.B] Hseed)).
Defined.

(** ** C3: processing order *)

Lemma tier_index l :
  (if PyStr.mem l priority_order then list_index l priority_order else None)
  = if decide (l = "high-priority") then Some 0
    else if decide (l = "medium-priority") then Some 1
    else if decide (l = "low-priority") then Some 2
    else None.
Proof.
  unfold PyStr.mem, priority_order.
  destruct (decide (l = "high-priority")) as [->|H1]; [done|].
  destruct (decide (l = "medium-priority")) as [->|H2]; [done|].
  destruct (decide (l = "low-priority")) as [->|H3]; [done|].
  rewrite bool_decide_eq_false_2; [done|].
  rewrite !elem_of_cons, elem_of_nil. tauto.
Qed.

Lemma first_tier_rank_cases tags :
  first_tier_rank tags
  = if decide ("high-priority" ∈ tags) then 0
    else if decide ("medium-priority" ∈ tags) then 1
    else if decide ("low-priority" ∈ tags) then 2
    else 3.
Proof.
  unfold first_tier_rank, priority_order. simpl.
  repeat case_decide; done.
Qed.

Lemma priority_key_first_tier issue :
  priority_key issue = first_tier_rank (labels issue).
Proof.
  unfold priority_key.
  induction (labels issue) as [|l ls IH]; [done|].
  rewrite first_tier_rank_cases in *.
  cbn [omap list_omap]. rewrite tier_index.
  assert (∀ t : string, t ∈ l :: ls ↔ t = l ∨ t ∈ ls) as Hin
    by (intros; apply elem_of_cons).
  destruct (decide (l = "high-priority")) as [->|H1];
    [|destruct (decide (l = "medium-priority")) as [->|H2];
      [|destruct (decide (l = "low-priority")) as [->|H3]]];
    cbn [foldr]; rewrite ?IH; clear IH;
    repeat case_decide; rewrite ?Hin in *;
    try (exfalso; intuition congruence); simpl; lia.
Qed.

Lemma assigned_issues_sublist out :
  assigned_issues out `sublist_of` event_issue <$> out.
Proof.
  unfold assigned_issues, assignments.
  induction out as [|ev out IH]; [done|].
  destruct ev; cbn; by constructor.
Qed.

Section Order.
Variable add_to_assignees : Tracker.
Variable max_assignments : Z.

(** The loop body prints exactly one line, about the issue it handles. *)
Lemma process_issue_output st issue :
  ∃ ev, output (process_issue add_to_assignees st issue) = output st ++ [ev]
        ∧ event_issue ev = issue.
Proof.
  destruct (process_issue_cases add_to_assignees st issue)
    as [[_ ->]|(r & s & _ & _ & [[_ ->]|(e & _ & ->)])]; eexists; by split.
Qed.

Lemma assign_loop_output issues : ∀ st,
  ∃ n, event_issue <$> output (assign_loop add_to_assignees max_assignments
                                 st issues)
       = (event_issue <$> output st) ++ take n issues.
Proof.
  induction issues as [|issue rest IH]; intros st; simpl.
  - exists 0%nat. by rewrite app_nil_r.
  - case_bool_decide.
    + exists 0%nat. by rewrite app_nil_r.
    + destruct (IH (process_issue add_to_assignees st issue)) as [n Hn].
      destruct (process_issue_output st issue) as (ev & Hev & Hissue).
      exists (S n). rewrite Hn, Hev, fmap_app, <- app_assoc. simpl.
      by rewrite Hissue.
Qed.

Lemma assign_tasks_output workload issues ws :
  ∃ n, event_issue <$> output (assign_tasks add_to_assignees max_assignments
                                 workload issues ws)
       = take n (sort_by_priority issues).
Proof.
  unfold assign_tasks. destruct issues as [|issue issues]; [by exists 0%nat|].
  apply (assign_loop_output _ (initial_state workload ws)).
Qed.
End Order.

(** The order the code works in, on the label names as they are written:
    the sort key of an issue is the index of the first tier of
    [high, medium, low] found among its label names, or 3; the loop works
    on the input sorted by that key, ascending and stable (issues of one
    key come out in input order); the lines the run prints are about a
    prefix of that order, one line per issue, and the assignments follow
    it too. *)
Theorem processing_order :
  (∀ issue, priority_key issue = first_tier_rank (labels issue))
  ∧ (∀ issues,
       sort_by_priority issues ≡ₚ issues
       ∧ StronglySorted (fun a b => priority_key a ≤ priority_key b)
                        (sort_by_priority issues)
       ∧ ∀ rank, filter (fun issue => priority_key issue = rank)
                        (sort_by_priority issues)
                 = filter (fun issue => priority_key issue = rank) issues)
  ∧ (∀ add_to_assignees max_assignments workload issues ws,
       let out := output (assign_tasks add_to_assignees max_assignments
                            workload issues ws) in
       event_issue <$> out `prefix_of` sort_by_priority issues
       ∧ assigned_issues out `sublist_of` sort_by_priority issues).
Proof.
  split; [exact priority_key_first_tier|]. split.
  - intros issues. unfold sort_by_priority. split; [apply sort_by_perm|].
    split; [apply (sort_by_sorted priority_key)|].
    intros rank. apply sort_by_filter_key.
  - intros tracker max workload issues ws out.
    destruct (assign_tasks_output tracker max workload issues ws) as [n Hn].
    fold out in Hn. split.
    + rewrite Hn. apply prefix_take.
    + etrans; [apply assigned_issues_sublist|]. rewrite Hn.
      apply sublist_take.
Qed.

(** C3. The code does not rank on the case-normalized tags. The sort key
    compares the label names as they are written (lines 125-127), while
    the scoring lower-cases them first (line 80). On a listing with an
    issue labelled [High-Priority] before a low-priority issue, the
    claimed rank of the first is 0 and the claimed order keeps it first,
    and the scoring gives it the high-priority bonus; yet its sort key is
    3, the code handles it after the low-priority issue, and the
    assignments come out in that order. *)
Theorem priority_sort_reads_labels_as_written :
  claimed_rank ScenarioRank.C1 = 0
  ∧ claimed_rank ScenarioRank.C2 = 2
  ∧ claimed_order [ScenarioRank.C1; ScenarioRank.C2]
    = [ScenarioRank.C1; ScenarioRank.C2]
  ∧ priority_bonus (item_tags ScenarioRank.C1) = pts_1_0
  ∧ priority_key ScenarioRank.C1 = 3
  ∧ priority_key ScenarioRank.C2 = 2
  ∧ sort_by_priority [ScenarioRank.C1; ScenarioRank.C2]
    = [ScenarioRank.C2; ScenarioRank.C1]
  ∧ assigned_issues (output (assign_tasks accept_all 10 ∅
                               [ScenarioRank.C1; ScenarioRank.C2]
                               [ScenarioA.A; ScenarioA.B]))
    = [ScenarioRank.C2; ScenarioRank.C1].
Proof. repeat split; by vm_compute. Qed.

(** ** C6 and C10: the bound on assignments *)

Section Bound.
Variable add_to_assignees : Tracker.
Variable max_assignments : Z.

Lemma assign_tasks_made workload issues ws :
  let st := assign_tasks add_to_assignees max_assignments workload issues ws in
  assignments_made st = Z.of_nat (length (assignments (output st)))
  ∧ assignments_made st ≤ Z.max 0 max_assignments.
Proof.
  unfold assign_tasks. destruct issues as [|issue issues]; simpl; [lia|].
  split; [by apply assign_loop_made|apply assign_loop_made_le; simpl; lia].
Qed.

Lemma assign_tasks_no_budget workload issues ws :
  max_assignments ≤ 0 →
  assign_tasks add_to_assignees max_assignments workload issues ws
  = initial_state workload ws.
Proof.
  intros Hmax. unfold assign_tasks. destruct issues; [done|].
  by apply assign_loop_stopped.
Qed.
End Bound.

(** C6. With a bound that is a count ([0 ≤ max_assignments]) a run makes
    at most [max_assignments] assignments, and with the bound 0 it makes
    none and prints nothing, whatever the issues, interns and loads. *)
Theorem assignments_bounded add_to_assignees max_assignments workload issues ws :
  0 ≤ max_assignments →
  let st := assign_tasks add_to_assignees max_assignments workload issues ws in
  Z.of_nat (length (assignments (output st))) ≤ max_assignments
  ∧ (max_assignments = 0 → assignments (output st) = [] ∧ output st = []).
Proof.
  intros Hmax st. split.
  - destruct (assign_tasks_made add_to_assignees max_assignments
                workload issues ws) as [Hlen Hle].
    fold st in Hlen, Hle. lia.
  - intros ->. subst st. by rewrite assign_tasks_no_budget.
Qed.

Lemma assignments_bounded_witness :
  0 ≤ 1
  ∧ Z.of_nat (length (assignments (output
      (assign_tasks accept_all 1 ∅ [ScenarioRetry.J1; ScenarioRetry.J2]
         [ScenarioA.A; ScenarioA.B])))) ≤ 1.
Proof.
  split; [lia|].
  apply (assignments_bounded accept_all 1 ∅
           [ScenarioRetry.J1; ScenarioRetry.J2] [ScenarioA.A; ScenarioA.B]).
  lia.
Defined.

(** C10. The counter that is compared with the bound moves only when the
    tracker accepted: a refused call leaves it as it was although the call
    was sent. So the assignments of a run never outnumber a bound that is
    a count, while the calls sent can: with the bound 1, two suitable
    issues and a tracker that refuses the first call, two calls are sent
    for one assignment. *)
Theorem bound_counts_accepted_calls :
  (∀ add_to_assignees st issue r s e,
     find_best issue (interns st) = (Some r, s) → 0 < s →
     add_to_assignees (calls st) issue (username r.2) = Some e →
     assignments_made (process_issue add_to_assignees st issue)
     = assignments_made st
     ∧ calls (process_issue add_to_assignees st issue) = S (calls st))
  ∧ (∀ add_to_assignees max_assignments workload issues ws,
       0 ≤ max_assignments →
       let st := assign_tasks add_to_assignees max_assignments
                   workload issues ws in
       assignments_made st = Z.of_nat (length (assignments (output st)))
       ∧ assignments_made st ≤ max_assignments)
  ∧ (let st := assign_tasks reject_first 1 ∅
                 [ScenarioRetry.J1; ScenarioRetry.J2]
                 [ScenarioA.A; ScenarioA.B] in
     calls st = 2%nat ∧ length (assignments (output st)) = 1%nat).
Proof.
  split; [|split].
  - intros tracker st issue r s e Hb Hs He.
    unfold process_issue, try_assign. rewrite Hb, He.
    by rewrite bool_decide_eq_true_2.
  - intros tracker max workload issues ws Hmax st.
    destruct (assign_tasks_made tracker max workload issues ws) as [Hlen Hle].
    fold st in Hlen, Hle. split; [done|lia].
  - by vm_compute.
Qed.

Lemma bound_counts_accepted_calls_witness :
  let st := initial_state ∅ [ScenarioA.A; ScenarioA.B] in
  assignments_made (process_issue reject_first st ScenarioRetry.J1) = 0
  ∧ calls (process_issue reject_first st ScenarioRetry.J1) = 1%nat
  ∧ assignments_made (assign_tasks accept_all 1 ∅
                        [ScenarioRetry.J1; ScenarioRetry.J2]
                        [ScenarioA.A; ScenarioA.B]) ≤ 1.
Proof.
  intros st.
  destruct bound_counts_accepted_calls as (Hstep & Hrun & _).
  destruct (Hstep reject_first st ScenarioRetry.J1 (0%nat, ScenarioA.A) 4
              forbidden) as [Hmade Hcalls].
  - by vm_compute.
  - lia.
  - by vm_compute.
  - split; [exact Hmade|]. split; [exact Hcalls|].
    apply (Hrun accept_all 1 ∅ [ScenarioRetry.J1; ScenarioRetry.J2]
             [ScenarioA.A; ScenarioA.B]). lia.
Defined.

(** ** C5: a failed commit *)

Section Raising.
Variable add_to_assignees : Tracker.
Variable max_assignments : Z.

(** Against a tracker that raises nothing but its own error the run
    returns, and it is the run of [assign_tasks]. *)
Lemma process_issue_raising_handled st issue :
  process_issue_raising (only_tracker_errors add_to_assignees) st issue
  = Returned (process_issue add_to_assignees st issue).
Proof.
  unfold process_issue_raising, process_issue, try_assign,
    only_tracker_errors.
  destruct (find_best issue (interns st)) as [[r|] s]; [|done].
  case_bool_decide; [|done].
  by destruct (add_to_assignees _ _ _).
Qed.

Lemma assign_loop_raising_handled issues : ∀ st,
  assign_loop_raising (only_tracker_errors add_to_assignees) max_assignments
    st issues
  = Returned (assign_loop add_to_assignees max_assignments st issues).
Proof.
  induction issues as [|issue rest IH]; intros st; simpl; [done|].
  case_bool_decide; [done|]. by rewrite process_issue_raising_handled, IH.
Qed.

Lemma assign_tasks_raising_handled workload issues ws :
  assign_tasks_raising (only_tracker_errors add_to_assignees) max_assignments
    workload issues ws
  = Returned (assign_tasks add_to_assignees max_assignments workload issues ws).
Proof.
  unfold assign_tasks_raising, assign_tasks. destruct issues; [done|].
  apply assign_loop_raising_handled.
Qed.
End Raising.

(** C5 as stated fails: the [except] clause catches [GithubException]
    only. When the call fails with an exception of another class, the
    exception leaves the loop body and the loop: the failure is raised to
    the caller and the next issue is never handled. *)
Lemma commit_failure_can_abort :
  ¬ commit_failure_survived network_down_first 10
      (initial_state ∅ [ScenarioA.A; ScenarioA.B])
      ScenarioRetry.J1 [ScenarioRetry.J2]
  ∧ assign_tasks_raising network_down_first 10 ∅
      [ScenarioRetry.J1; ScenarioRetry.J2] [ScenarioA.A; ScenarioA.B]
    = Uncaught "ConnectionError"
        (sent (initial_state ∅ [ScenarioA.A; ScenarioA.B])).
Proof.
  split; [|by vm_compute].
  intros Hclaim.
  destruct (Hclaim (0%nat, ScenarioA.A) 4 (OtherError "ConnectionError"))
    as (st' & Hret & _).
  - by vm_compute.
  - lia.
  - by vm_compute.
  - assert (process_issue_raising network_down_first
              (initial_state ∅ [ScenarioA.A; ScenarioA.B]) ScenarioRetry.J1
            = Uncaught "ConnectionError"
                (sent (initial_state ∅ [ScenarioA.A; ScenarioA.B]))) as Hab
      by (by vm_compute).
    rewrite Hab in Hret. discriminate Hret.
Qed.

(** C5, as the code has it. When the call for the selected intern raises
    the tracker's [GithubException], the exception is caught inside the
    loop body: the body returns with the assignments, the loads and the
    counter it had, one call was sent and one error line printed, and the
    loop goes on with the next issue, so no other intern is tried for the
    refused one. When the call raises anything else, the exception is not
    caught: it leaves the run at once, with the loads and the assignments
    as they were, and no further issue is handled. *)
Theorem commit_failure_handling
    add_to_assignees max_assignments st issue r s :
  find_best issue (interns st) = (Some r, s) → 0 < s →
  (∀ e,
     add_to_assignees (calls st) issue (username r.2) = Some (TrackerError e) →
     let st' := print (AssignError issue r e) (sent st) in
     process_issue_raising add_to_assignees st issue = Returned st'
     ∧ assignments (output st') = assignments (output st)
     ∧ interns st' = interns st
     ∧ assignments_made st' = assignments_made st
     ∧ calls st' = S (calls st)
     ∧ ∀ rest, assignments_made st < max_assignments →
         assign_loop_raising add_to_assignees max_assignments st
           (issue :: rest)
         = assign_loop_raising add_to_assignees max_assignments st' rest)
  ∧ (∀ description,
       add_to_assignees (calls st) issue (username r.2)
       = Some (OtherError description) →
       process_issue_raising add_to_assignees st issue
       = Uncaught description (sent st)
       ∧ assignments (output (sent st)) = assignments (output st)
       ∧ interns (sent st) = interns st
       ∧ assignments_made (sent st) = assignments_made st
       ∧ ∀ rest, assignments_made st < max_assignments →
           assign_loop_raising add_to_assignees max_assignments st
             (issue :: rest)
           = Uncaught description (sent st)).
Proof.
  intros Hb Hs. split.
  - intros e He st'.
    assert (process_issue_raising add_to_assignees st issue = Returned st')
      as Hstep.
    { unfold process_issue_raising. rewrite Hb, He.
      by rewrite bool_decide_eq_true_2. }
    split; [done|]. subst st'. simpl.
    split; [by rewrite assignments_app, app_nil_r|].
    split; [done|]. split; [done|]. split; [done|].
    intros rest Hlt. rewrite bool_decide_eq_false_2 by lia.
    by rewrite Hstep.
  - intros description Hd.
    assert (process_issue_raising add_to_assignees st issue
            = Uncaught description (sent st)) as Hstep.
    { unfold process_issue_raising. rewrite Hb, Hd.
      by rewrite bool_decide_eq_true_2. }
    split; [done|]. split; [done|]. split; [done|]. split; [done|].
    intros rest Hlt. simpl. rewrite bool_decide_eq_false_2 by lia.
    by rewrite Hstep.
Qed.

Lemma commit_failure_handling_witness :
  let st := initial_state ∅ [ScenarioA.A; ScenarioA.B] in
  process_issue_raising (only_tracker_errors reject_first) st ScenarioRetry.J1
  = Returned (print (AssignError ScenarioRetry.J1 (0%nat, ScenarioA.A)
                       forbidden) (sent st))
  ∧ assign_loop_raising network_down_first 10 st
      [ScenarioRetry.J1; ScenarioRetry.J2]
    = Uncaught "ConnectionError" (sent st).
Proof.
  intros st. split.
  - destruct (commit_failure_handling (only_tracker_errors reject_first) 10
                st ScenarioRetry.J1 (0%nat, ScenarioA.A) 4) as [Hcaught _].
    + by vm_compute.
    + lia.
    + destruct (Hcaught forbidden) as [Hstep _]; [by vm_compute|].
      exact Hstep.
  - destruct (commit_failure_handling network_down_first 10
                st ScenarioRetry.J1 (0%nat, ScenarioA.A) 4) as [_ Hother].
    + by vm_compute.
    + lia.
    + destruct (Hother "ConnectionError") as (_ & _ & _ & _ & Hloop);
        [by vm_compute|].
      apply Hloop. simpl. lia.
Defined.

(** ** C7: issues nobody can take *)

Section Skipped.
Variable add_to_assignees : Tracker.
Variable max_assignments : Z.

Lemma process_issue_unsuitable st issue :
  (∀ w, w ∈ interns st → has_capacity w → calculate_task_score issue w ≤ 0) →
  process_issue add_to_assignees st issue = print (NoSuitableIntern issue) st.
Proof.
  intros Hlow.
  destruct (process_issue_cases add_to_assignees st issue)
    as [[_ ->]|(r & s & Hb & Hs & _)]; [done|].
  apply find_best_some in Hb as (Hr & Hc & ->).
  apply list_elem_of_lookup_2 in Hr. specialize (Hlow _ Hr Hc). lia.
Qed.

Lemma assign_loop_all_full issues : ∀ st,
  Forall (fun w => ¬ has_capacity w) (interns st) →
  assignments_made st < max_assignments →
  assign_loop add_to_assignees max_assignments st issues
  = {| interns := interns st; assignments_made := assignments_made st;
       calls := calls st;
       output := output st ++ (NoSuitableIntern <$> issues) |}.
Proof.
  induction issues as [|issue rest IH]; intros st Hfull Hlt; simpl.
  - rewrite app_nil_r. by destruct st.
  - rewrite bool_decide_eq_false_2 by lia.
    rewrite process_issue_unsuitable.
    + rewrite IH by done. simpl. by rewrite <- app_assoc.
    + intros w Hw Hc. rewrite Forall_forall in Hfull. by destruct (Hfull w Hw).
Qed.
End Skipped.

(** C7. An issue for which no intern below its limit scores above 0 (in
    particular when no intern is below its limit) is left unassigned: the
    loop body sends no call, changes no load and prints the skip line, and
    it returns normally. When every intern is at its limit from the start,
    the whole run assigns nothing, sends no call, leaves the loads as
    seeded and prints one skip line per issue in processing order (no line
    at all when the bound leaves no room). *)
Theorem unsuitable_issue_skipped :
  (∀ add_to_assignees st issue,
     (∀ w, w ∈ interns st → has_capacity w →
           calculate_task_score issue w ≤ 0) →
     process_issue add_to_assignees st issue
     = print (NoSuitableIntern issue) st)
  ∧ (∀ add_to_assignees st issue,
       Forall (fun w => max_tasks w ≤ current_tasks w) (interns st) →
       process_issue add_to_assignees st issue
       = print (NoSuitableIntern issue) st)
  ∧ (∀ add_to_assignees max_assignments workload issues ws,
       Forall (fun w => max_tasks w ≤ current_tasks w) (seed workload ws) →
       let st := assign_tasks add_to_assignees max_assignments
                   workload issues ws in
       assignments (output st) = [] ∧ calls st = 0%nat
       ∧ interns st = seed workload ws
       ∧ output st
         = NoSuitableIntern <$> (if bool_decide (0 < max_assignments)
                                 then sort_by_priority issues else [])).
Proof.
  split; [exact process_issue_unsuitable|].
  assert (∀ ws, Forall (fun w => max_tasks w ≤ current_tasks w) ws →
                Forall (fun w => ¬ has_capacity w) ws) as Hfull.
  { intros ws Hws. eapply Forall_impl; [exact Hws|].
    unfold has_capacity. intros w. simpl. lia. }
  split.
  - intros tracker st issue Hst. apply process_issue_unsuitable.
    intros w Hw Hc. apply Hfull in Hst. rewrite Forall_forall in Hst.
    by destruct (Hst w Hw).
  - intros tracker max workload issues ws Hseed st. subst st.
    case_bool_decide as Hmax.
    + unfold assign_tasks.
      replace (match issues with
               | [] => initial_state workload ws
               | _ :: _ => assign_loop tracker max (initial_state workload ws)
                             (sort_by_priority issues)
               end)
        with (assign_loop tracker max (initial_state workload ws)
                (sort_by_priority issues)) by (by destruct issues).
      rewrite assign_loop_all_full by (simpl; auto). simpl.
      split; [|done].
      unfold assignments. induction (sort_by_priority issues); naive_solver.
    + by rewrite assign_tasks_no_budget by lia.
Qed.

Lemma unsuitable_issue_skipped_witness :
  let st := assign_tasks accept_all 10 full_workload
              [ScenarioA.I1; ScenarioRetry.J1] [ScenarioA.A; ScenarioA.B] in
  assignments (output st) = [] ∧ calls st = 0%nat
  ∧ output st = [NoSuitableIntern ScenarioA.I1;
                 NoSuitableIntern ScenarioRetry.J1].
Proof.
  intros st.
  destruct unsuitable_issue_skipped as (_ & _ & Hrun).
  destruct (Hrun accept_all 10 full_workload
              [ScenarioA.I1; ScenarioRetry.J1] [ScenarioA.A; ScenarioA.B])
    as (Hnone & Hcalls & _ & Hout).
  - solve_loads_ok.
  - split; [exact Hnone|]. split; [exact Hcalls|]. exact Hout.
Defined.

(** ** C8: determinism and ties *)

Section Determinism.
Variables tracker1 tracker2 : Tracker.
Variable max_assignments : Z.
Hypothesis same_answers : ∀ n issue user,
  is_Some (tracker1 n issue user) ↔ is_Some (tracker2 n issue user).

Lemma process_issue_same st1 st2 issue :
  same_allocation st1 st2 →
  same_allocation (process_issue tracker1 st1 issue)
                  (process_issue tracker2 st2 issue).
Proof.
  intros (Hws & Hmade & Hcalls & Hout).
  unfold process_issue, try_assign. rewrite <- Hws, <- Hcalls.
  destruct (find_best issue (interns st1)) as [[r|] s].
  - case_bool_decide.
    + pose proof (same_answers (calls st1) issue (username r.2)) as Hsame.
      destruct (tracker1 _ _ _) as [e1|], (tracker2 _ _ _) as [e2|].
      * unfold same_allocation; simpl.
        rewrite !assignments_app, Hout. by rewrite Hws, Hcalls, Hmade.
      * by destruct (proj1 Hsame (mk_is_Some _ _ eq_refl)).
      * by destruct (proj2 Hsame (mk_is_Some _ _ eq_refl)).
      * unfold same_allocation; simpl.
        rewrite !assignments_app, Hout. by rewrite Hws, Hcalls, Hmade.
    + unfold same_allocation; simpl.
      rewrite !assignments_app, Hout. by rewrite Hws, Hcalls, Hmade.
  - unfold same_allocation; simpl.
    rewrite !assignments_app, Hout. by rewrite Hws, Hcalls, Hmade.
Qed.

Lemma assign_loop_same issues : ∀ st1 st2,
  same_allocation st1 st2 →
  same_allocation (assign_loop tracker1 max_assignments st1 issues)
                  (assign_loop tracker2 max_assignments st2 issues).
Proof.
  induction issues as [|issue rest IH]; intros st1 st2 Hsame; simpl; [done|].
  destruct Hsame as (Hws & Hmade & Hrest). rewrite <- Hmade.
  case_bool_decide; [done|]. by apply IH, process_issue_same.
Qed.

Lemma assign_tasks_same workload issues ws :
  same_allocation (assign_tasks tracker1 max_assignments workload issues ws)
                  (assign_tasks tracker2 max_assignments workload issues ws).
Proof.
  unfold assign_tasks. destruct issues; [done|]. by apply assign_loop_same.
Qed.
End Determinism.

Lemma find_best_first_greatest issue ws :
  (Forall (fun w => ¬ has_capacity w) ws ∧ find_best issue ws = (None, -2))
  ∨ (∃ k w, first_greatest issue ws k w
            ∧ find_best issue ws = (Some (k, w), calculate_task_score issue w)).
Proof.
  destruct (find_best_spec issue ws)
    as [[Heq Hfull]|(k & w & Hk & Hc & Heq & Hall)]; [by left|].
  right. exists k, w. by split.
Qed.

Lemma first_greatest_unique issue ws k1 w1 k2 w2 :
  first_greatest issue ws k1 w1 → first_greatest issue ws k2 w2 →
  k1 = k2 ∧ w1 = w2.
Proof.
  intros (Hk1 & Hc1 & Hall1) (Hk2 & Hc2 & Hall2).
  destruct (Hall1 k2 w2 Hk2 Hc2) as [Hle1 Hlt1].
  destruct (Hall2 k1 w1 Hk1 Hc1) as [Hle2 Hlt2].
  assert (k1 = k2) as ->.
  { destruct (Nat.lt_trichotomy k1 k2) as [Hlt|[?|Hlt]]; [|done|].
    - specialize (Hlt2 Hlt). lia.
    - specialize (Hlt1 Hlt). lia. }
  split; [done|]. rewrite Hk1 in Hk2. by injection Hk2.
Qed.

Lemma find_best_is_first_greatest issue ws k w :
  first_greatest issue ws k w →
  find_best issue ws = (Some (k, w), calculate_task_score issue w).
Proof.
  intros Hfirst.
  destruct (find_best_first_greatest issue ws)
    as [[Hfull _]|(k0 & w0 & Hfirst0 & Heq)].
  - destruct Hfirst as (Hk & Hc & _). rewrite Forall_forall in Hfull.
    apply list_elem_of_lookup_2 in Hk. by destruct (Hfull w Hk).
  - by destruct (first_greatest_unique _ _ _ _ _ _ Hfirst Hfirst0) as [-> ->].
Qed.

(** C8. The selection is decided by the directory order. When some intern
    is below its limit, there is a first one, in iteration order, among
    the interns below their limit with the greatest score (every such
    intern scores at most as much and every earlier one strictly less),
    and the inner loop returns exactly that intern with its score; when no
    intern is below its limit it returns nobody. When that score is above
    0 and the tracker accepts, the loop body assigns the issue to that
    intern. With that, a run is a function of the issues, the interns in
    their order, the seeded loads and the tracker's answers: two runs on
    the same inputs in which the tracker accepts the same calls make the
    same assignments in the same order and leave the same loads. *)
Theorem allocation_deterministic :
  (∀ issue ws w,
     w ∈ ws → has_capacity w → ∃ k w', first_greatest issue ws k w')
  ∧ (∀ issue ws k w,
       first_greatest issue ws k w →
       find_best issue ws = (Some (k, w), calculate_task_score issue w))
  ∧ (∀ issue ws,
       Forall (fun w => ¬ has_capacity w) ws →
       find_best issue ws = (None, -2))
  ∧ (∀ issue ws r s,
       find_best issue ws = (Some r, s) →
       first_greatest issue ws r.1 r.2
       ∧ s = calculate_task_score issue r.2)
  ∧ (∀ add_to_assignees st issue k w,
       first_greatest issue (interns st) k w →
       0 < calculate_task_score issue w →
       add_to_assignees (calls st) issue (username w) = None →
       process_issue add_to_assignees st issue
       = print (Assigned issue (k, w) (calculate_task_score issue w))
               (count_assignment (k, w) (sent st)))
  ∧ (∀ tracker1 tracker2 max_assignments workload issues ws,
       (∀ n issue user,
          is_Some (tracker1 n issue user) ↔ is_Some (tracker2 n issue user)) →
       let st1 := assign_tasks tracker1 max_assignments workload issues ws in
       let st2 := assign_tasks tracker2 max_assignments workload issues ws in
       assignments (output st1) = assignments (output st2)
       ∧ interns st1 = interns st2).
Proof.
  split; [|split; [|split; [|split; [|split]]]].
  - intros issue ws w Hw Hc.
    destruct (find_best_first_greatest issue ws)
      as [[Hfull _]|(k & w' & Hfirst & _)]; [|by exists k, w'].
    rewrite Forall_forall in Hfull. by destruct (Hfull w Hw).
  - exact find_best_is_first_greatest.
  - intros issue ws Hfull.
    destruct (find_best_first_greatest issue ws)
      as [[_ Heq]|(k & w & (Hk & Hc & _) & _)]; [done|].
    rewrite Forall_forall in Hfull.
    apply list_elem_of_lookup_2 in Hk. by destruct (Hfull w Hk).
  - intros issue ws r s Hb.
    destruct (find_best_first_greatest issue ws)
      as [[_ Heq]|(k & w & Hfirst & Heq)]; rewrite Heq in Hb; [done|].
    injection Hb as <- <-. by split.
  - intros tracker st issue k w Hfirst Hs Hok.
    apply process_issue_accepted; [|done|done].
    by apply find_best_is_first_greatest.
  - intros t1 t2 max workload issues ws Hsame st1 st2.
    destruct (assign_tasks_same t1 t2 max Hsame workload issues ws)
      as (Hws & _ & _ & Hout).
    by split.
Qed.

Lemma allocation_deterministic_witness :
  let other : Tracker :=
    fun n _ _ => if bool_decide (n = 0%nat)
                 then Some {| status := 422; message := "Validation Failed" |}
                 else None in
  find_best ScenarioSuggest.K1 [ScenarioSuggest.Q; ScenarioSuggest.P]
  = (Some (1%nat, ScenarioSuggest.P), 8)
  ∧ assignments (output (assign_tasks reject_first 10 ∅
       [ScenarioRetry.J1; ScenarioRetry.J2] [ScenarioA.A; ScenarioA.B]))
    = assignments (output (assign_tasks other 10 ∅
       [ScenarioRetry.J1; ScenarioRetry.J2] [ScenarioA.A; ScenarioA.B])).
Proof.
  intros other.
  destruct allocation_deterministic as (_ & Hfirst & _ & _ & _ & Hdet).
  split.
  - apply (Hfirst ScenarioSuggest.K1 [ScenarioSuggest.Q; ScenarioSuggest.P]
             1%nat ScenarioSuggest.P).
    split; [reflexivity|]. split; [unfold has_capacity; simpl; lia|].
    assert (calculate_task_score ScenarioSuggest.K1 ScenarioSuggest.P = 8)
      as HP by (by vm_compute).
    assert (calculate_task_score ScenarioSuggest.K1 ScenarioSuggest.Q = 4)
      as HQ by (by vm_compute).
    intros [|[|k']] w' Hk' _; simpl in Hk'; [| |done];
      injection Hk' as <-; rewrite ?HP, ?HQ; split; lia.
  - apply (Hdet reject_first other 10 ∅
             [ScenarioRetry.J1; ScenarioRetry.J2] [ScenarioA.A; ScenarioA.B]).
    intros n issue user. unfold reject_first, other.
    case_bool_decide; [split; intros _; by eexists | reflexivity].
Defined.

(** ** C9 and C4: suggest mode *)

Lemma seed_idemp workload ws :
  seed workload (seed workload ws) = seed workload ws.
Proof.
  unfold seed. rewrite <- list_fmap_compose. by apply list_fmap_ext.
Qed.

Lemma seed_load workload ws i w :
  seed workload ws !! i = Some w →
  current_tasks w = workload_get workload (username w).
Proof.
  unfold seed. rewrite list_lookup_fmap.
  destruct (ws !! i) as [w0|]; simpl; [|done]. by intros [= <-].
Qed.

(** The inner loop of suggest mode seeds every intern and collects the
    candidates of the seeded interns. *)
Lemma suggest_scan_seed workload issue ws : ∀ i,
  suggest_scan workload issue i ws
  = (seed workload ws, candidates issue i (seed workload ws)).
Proof.
  induction ws as [|w ws IH]; intros i; simpl; [done|].
  rewrite IH. unfold has_capacity. done.
Qed.

Lemma suggest_loop_seed workload issues : ∀ ws,
  suggest_loop workload ws issues
  = (match issues with [] => ws | _ => seed workload ws end,
     (fun issue =>
        (issue, top_suggestions (candidates issue 0 (seed workload ws))))
     <$> issues).
Proof.
  induction issues as [|issue rest IH]; intros ws; simpl; [done|].
  rewrite suggest_scan_seed, IH, seed_idemp. by destruct rest.
Qed.

(** C9. Suggest mode leaves the seeded loads as they are: called on
    interns whose loads are the seeded ones, it returns them unchanged,
    every load still the workload's count for that intern. (Called on
    interns not seeded yet, it seeds them when there is an issue to look
    at and does not touch them when there is none.) *)
Theorem suggest_keeps_loads workload issues ws :
  (suggest_assignments workload issues (seed workload ws)).1
  = seed workload ws
  ∧ (∀ i w, (suggest_assignments workload issues (seed workload ws)).1 !! i
            = Some w →
            current_tasks w = workload_get workload (username w))
  ∧ (suggest_assignments workload issues ws).1
    = match issues with [] => ws | _ => seed workload ws end.
Proof.
  unfold suggest_assignments. rewrite !suggest_loop_seed. simpl.
  rewrite seed_idemp.
  assert (match issues with [] | _ => seed workload ws end = seed workload ws)
    as -> by (by destruct issues).
  split; [done|]. split; [|done]. intros i w. apply seed_load.
Qed.

Lemma first_min_elem {A} (key : A → Z) (l : list A) x :
  first_min key l = Some x → x ∈ l.
Proof.
  intros (l1 & l2 & -> & _)%first_min_split. set_solver.
Qed.

(** The candidate suggest mode lists first is the intern the inner loop
    of [assign_tasks] returns on the same interns. *)
Lemma head_top_suggestions issue ws :
  head (top_suggestions (candidates issue 0 ws)) = best_suggestion issue ws.
Proof.
  unfold top_suggestions, best_suggestion, find_best.
  rewrite scan_interns_candidates, fold_better_first_min.
  assert (∀ l : list Suggestion, head (take 3 l) = head l) as ->
    by (by intros [|? ?]).
  rewrite head_sort_by.
  destruct (first_min _ _) as [d|] eqn:Hd; [|done].
  apply first_min_elem, candidates_score in Hd as (_ & _ & _ & Hs).
  pose proof (calculate_task_score_nonneg issue d.1.2).
  destruct d as [[i w] sc]; simpl in *. subst sc.
  unfold better. simpl. by rewrite bool_decide_eq_true_2 by lia.
Qed.

Lemma assignments_print_assigned ev st :
  assignments (output (print ev st))
  = assignments (output st)
    ++ match ev with
       | Assigned issue r s => [(issue, r, s)]
       | _ => []
       end.
Proof. simpl. rewrite assignments_app. by destruct ev. Qed.

(** C4, as the code has it. Suggest mode lists the issues in the order it
    was given them, without the priority sort, and for each issue the
    three best of the interns below their limit under the seeded loads,
    scored by [calculate_task_score] and ordered by score, earlier
    interns first among equals; the loads it reads never move during the
    call and no bound applies. The first candidate is the intern the
    selection loop of [assign_tasks] returns on the seeded interns; hence,
    when [assign_tasks] assigns the one issue of a run, suggest mode on the
    same inputs lists the assignee first. *)
Theorem suggest_ranks_like_selection :
  (∀ workload issues ws,
     (suggest_assignments workload issues ws).2
     = (fun issue =>
          (issue, top_suggestions (candidates issue 0 (seed workload ws))))
       <$> issues)
  ∧ (∀ issue ws,
       head (top_suggestions (candidates issue 0 ws))
       = best_suggestion issue ws)
  ∧ (∀ add_to_assignees max_assignments workload issue ws r s,
       assignments (output (assign_tasks add_to_assignees max_assignments
                              workload [issue] ws)) = [(issue, r, s)] →
       ∃ tops, (suggest_assignments workload [issue] ws).2 = [(issue, tops)]
               ∧ head tops = Some (r, s)).
Proof.
  split; [|split].
  - intros workload issues ws. unfold suggest_assignments.
    by rewrite suggest_loop_seed.
  - exact head_top_suggestions.
  - intros tracker max workload issue ws r s Hrun.
    unfold suggest_assignments. rewrite suggest_loop_seed. simpl.
    eexists. split; [done|]. rewrite head_top_suggestions.
    unfold assign_tasks, sort_by_priority in Hrun. simpl in Hrun.
    case_bool_decide; [done|]. unfold best_suggestion.
    destruct (process_issue_cases tracker (initial_state workload ws) issue)
      as [[_ Heq]|(r' & s' & Hb & _ & [[_ Heq]|(e & _ & Heq)])];
      rewrite Heq, assignments_print_assigned in Hrun; simpl in Hrun;
      try done.
    injection Hrun as <- <-. simpl in Hb. by rewrite Hb.
Qed.

Lemma elem_of_two {A} (x a b : A) : x ∈ [a; b] → x = a ∨ x = b.
Proof. rewrite !elem_of_cons, elem_of_nil. tauto. Qed.

Lemma suggest_ranks_like_selection_witness :
  ∃ tops,
    (suggest_assignments ∅ [ScenarioA.I1] [ScenarioA.A; ScenarioA.B]).2
    = [(ScenarioA.I1, tops)]
    ∧ head tops = Some ((0%nat, ScenarioA.A), 13).
Proof.
  destruct suggest_ranks_like_selection as (_ & _ & Hone).
  apply (Hone accept_all 10 ∅ ScenarioA.I1 [ScenarioA.A; ScenarioA.B]).
  by vm_compute.
Defined.

(** C4 as stated fails: given a low-priority issue before a high-priority
    one, suggest mode lists them in that order while the run works in the
    sorted order; and the run gives the low-priority issue to [Q], because
    [P] is full by then, while suggest mode lists [P] first for it. *)
Lemma suggest_differs_from_run :
  fst <$> (suggest_assignments ∅ [ScenarioSuggest.K1; ScenarioSuggest.K2]
             [ScenarioSuggest.P; ScenarioSuggest.Q]).2
  ≠ sort_by_priority [ScenarioSuggest.K1; ScenarioSuggest.K2]
  ∧ ¬ suggestions_foretell accept_all 10 ∅
        [ScenarioSuggest.K1; ScenarioSuggest.K2]
        [ScenarioSuggest.P; ScenarioSuggest.Q].
Proof.
  split; [by vm_compute|].
  intros Hclaim.
  destruct (Hclaim ScenarioSuggest.K1 (1%nat, ScenarioSuggest.Q) 4)
    as (top & rest & Hin & Htop).
  - assert (assignments (output (assign_tasks accept_all 10 ∅
              [ScenarioSuggest.K1; ScenarioSuggest.K2]
              [ScenarioSuggest.P; ScenarioSuggest.Q]))
            = [(ScenarioSuggest.K2, (0%nat, ScenarioSuggest.P), 10);
               (ScenarioSuggest.K1, (1%nat, ScenarioSuggest.Q), 4)]) as ->
      by (by vm_compute).
    apply list_elem_of_further, list_elem_of_here.
  - assert ((suggest_assignments ∅ [ScenarioSuggest.K1; ScenarioSuggest.K2]
               [ScenarioSuggest.P; ScenarioSuggest.Q]).2
            = [(ScenarioSuggest.K1, [((0%nat, ScenarioSuggest.P), 8);
                                     ((1%nat, ScenarioSuggest.Q), 4)]);
               (ScenarioSuggest.K2, [((0%nat, ScenarioSuggest.P), 10);
                                     ((1%nat, ScenarioSuggest.Q), 6)])])
      as Hsug by (by vm_compute).
    rewrite Hsug in Hin.
    apply elem_of_two in Hin as [Hin|Hin].
    + injection Hin as Ht _. rewrite Ht in Htop. clear -Htop.
      simpl in Htop. discriminate Htop.
    + apply (f_equal (fun p => title p.1)) in Hin. clear -Hin.
      vm_compute in Hin. discriminate Hin.
Qed.

(** ** C2: the scoring scheme *)

(** C2 as stated fails twice. In scenario A the high-priority bonus goes
    to every intern, so [B] scores 1.0 on [I1] (2 half points), not 0. And
    the skill tag is compared as it is written with the lower-cased body:
    the skill [AI] does not match the body [intro to ai], which it does
    when letter case is ignored. *)
Lemma score_scheme_fails :
  calculate_task_score ScenarioA.I1 ScenarioA.B ≠ 0
  ∧ calculate_task_score ScenarioCase.I ScenarioCase.W
    ≠ spec_score ScenarioCase.I ScenarioCase.W.
Proof. split; by vm_compute. Qed.

(** C2, as the code has it. The score is the additive scheme, in half
    points: 2.0 for each skill tag that, as written, is in the lower-cased
    tag set or occurs in the lower-cased body (no body counts as the empty
    text), 1.5 for each preference tag in the lower-cased tag set, 1.0 for
    a high-priority tag or else 0.5 for a medium-priority tag, 1.0 for a
    good-first-issue tag when the load is exactly 0. For interns whose
    skill tags are lower-case this is the scheme that ignores letter case.
    In scenario A, [A] scores 6.5 on [I1] and [B] scores 1.0; when the
    bound leaves room and the tracker accepts the call, [I1] is assigned
    to [A], whose load becomes 1. *)
Theorem score_is_additive :
  (∀ issue w, calculate_task_score issue w = additive_score issue w)
  ∧ (∀ issue w,
       Forall (fun skill => PyStr.lower skill = skill) (skills w) →
       calculate_task_score issue w = spec_score issue w)
  ∧ calculate_task_score ScenarioA.I1 ScenarioA.A = 13
  ∧ calculate_task_score ScenarioA.I1 ScenarioA.B = 2
  ∧ (∀ add_to_assignees max_assignments,
       0 < max_assignments →
       add_to_assignees 0%nat ScenarioA.I1 "A" = None →
       let st := assign_tasks add_to_assignees max_assignments ∅
                   [ScenarioA.I1] [ScenarioA.A; ScenarioA.B] in
       assignments (output st) = [(ScenarioA.I1, (0%nat, ScenarioA.A), 13)]
       ∧ interns st = [set_current_tasks 1 ScenarioA.A; ScenarioA.B]).
Proof.
  split; [exact calculate_task_score_additive|].
  split.
  { intros issue w Hlow.
    by rewrite calculate_task_score_additive, additive_score_lower_skills. }
  split; [by vm_compute|]. split; [by vm_compute|].
  intros tracker max Hmax Hok st. subst st.
  set (st0 := initial_state ∅ [ScenarioA.A; ScenarioA.B]).
  assert (assign_tasks tracker max ∅ [ScenarioA.I1] [ScenarioA.A; ScenarioA.B]
          = process_issue tracker st0 ScenarioA.I1) as ->.
  { unfold assign_tasks, sort_by_priority. cbn [sort_by insert_by assign_loop].
    fold st0. by rewrite bool_decide_eq_false_2 by (cbn; lia). }
  rewrite (process_issue_accepted tracker st0 ScenarioA.I1
             (0%nat, ScenarioA.A) 13); [|by vm_compute|lia|exact Hok].
  split; by vm_compute.
Qed.

Lemma score_is_additive_witness :
  calculate_task_score ScenarioA.I1 ScenarioA.A
  = spec_score ScenarioA.I1 ScenarioA.A
  ∧ interns (assign_tasks accept_all 10 ∅ [ScenarioA.I1]
               [ScenarioA.A; ScenarioA.B])
    = [set_current_tasks 1 ScenarioA.A; ScenarioA.B].
Proof.
  destruct score_is_additive as (_ & Hlow & _ & _ & Hrun).
  split.
  - apply Hlow. repeat (apply Forall_cons_2; [by vm_compute|]).
    apply Forall_nil_2.
  - apply (Hrun accept_all 10); [lia|reflexivity].
Defined.

(** * Further properties of [assign_tasks.py] *)

(** ** The workload count *)

Lemma occurrences_cons user login logins :
  occurrences user (login :: logins)
  = if decide (login = user) then S (occurrences user logins)
    else occurrences user logins.
Proof.
  unfold occurrences. rewrite filter_cons. by destruct (decide (login = user)).
Qed.

Lemma fold_count_assignee_lookup user logins : ∀ workload,
  fold_left count_assignee logins workload !! user
  = if decide (occurrences user logins = 0%nat) then workload !! user
    else Some (default 0 (workload !! user)
               + Z.of_nat (occurrences user logins)).
Proof.
  induction logins as [|login logins IH]; intros workload; [done|].
  cbn [fold_left]. rewrite IH, occurrences_cons. unfold count_assignee.
  destruct (decide (login = user)) as [->|Hne].
  - rewrite lookup_insert_eq. simpl.
    repeat case_decide; try lia; f_equal; lia.
  - rewrite lookup_insert_ne by done. done.
Qed.

Lemma get_intern_workload_flat open_issues : ∀ workload,
  fold_left (fun workload issue =>
               fold_left count_assignee (assignees issue) workload)
            open_issues workload
  = fold_left count_assignee (all_assignees open_issues) workload.
Proof.
  unfold all_assignees.
  induction open_issues as [|issue rest IH]; intros workload; [done|].
  cbn [fold_left]. by rewrite IH, bind_cons, fold_left_app.
Qed.

Lemma workload_get_count open_issues user :
  workload_get (get_intern_workload open_issues) user
  = Z.of_nat (occurrences user (all_assignees open_issues)).
Proof.
  unfold workload_get, get_intern_workload.
  rewrite get_intern_workload_flat, fold_count_assignee_lookup, lookup_empty.
  case_decide as Hz; simpl; lia.
Qed.

(** X1. The workload dictionary holds, for every login, the number of
    times the login is an assignee of a listed open issue; a login that
    is nobody's assignee has no entry, so there is no entry with a count
    of 0, and [workload.get(login, 0)] is the count in both cases. *)
Theorem workload_counts_assignees open_issues user :
  get_intern_workload open_issues !! user
  = (if decide (occurrences user (all_assignees open_issues) = 0%nat)
     then None
     else Some (Z.of_nat (occurrences user (all_assignees open_issues))))
  ∧ workload_get (get_intern_workload open_issues) user
    = Z.of_nat (occurrences user (all_assignees open_issues)).
Proof.
  split; [|apply workload_get_count].
  unfold get_intern_workload.
  rewrite get_intern_workload_flat, fold_count_assignee_lookup, lookup_empty.
  case_decide; [done|]. done.
Qed.

(** ** Loads during a run *)

Lemma directory_entry_load w w0 :
  directory_entry w = directory_entry w0 →
  current_tasks w = current_tasks w0 → w = w0.
Proof.
  unfold directory_entry, set_current_tasks. destruct w, w0; simpl.
  intros Hdir ->. by simplify_eq.
Qed.

Lemma grown_refl w : grown w w.
Proof. unfold grown. split; [done|]. lia. Qed.

Lemma bump_grown r ws0 ws :
  Forall2 grown ws0 ws → ws !! r.1 = Some r.2 → has_capacity r.2 →
  Forall2 grown ws0 (bump r ws).
Proof.
  intros Hg Hr Hc. unfold bump. apply Forall2_alter_r; [done|].
  intros w0 w Hw0 Hw (Hdir & Hlo & Hhi).
  rewrite Hr in Hw. injection Hw as <-. unfold has_capacity in Hc.
  assert (max_tasks r.2 = max_tasks w0) as Hmax.
  { apply (f_equal max_tasks) in Hdir. exact Hdir. }
  unfold grown. simpl. split; [exact Hdir|]. lia.
Qed.

Section Loads.
Variable add_to_assignees : Tracker.
Variable max_assignments : Z.

Lemma process_issue_grown ws0 st issue :
  Forall2 grown ws0 (interns st) →
  Forall2 grown ws0 (interns (process_issue add_to_assignees st issue)).
Proof.
  intros Hg.
  destruct (process_issue_cases add_to_assignees st issue)
    as [[_ ->]|(r & s & Hb & _ & [[_ ->]|(e & _ & ->)])]; simpl; try done.
  apply find_best_some in Hb as (Hr & Hc & _). by apply bump_grown.
Qed.

Lemma assign_loop_grown ws0 issues : ∀ st,
  Forall2 grown ws0 (interns st) →
  Forall2 grown ws0 (interns (assign_loop add_to_assignees max_assignments
                                st issues)).
Proof.
  induction issues as [|issue rest IH]; intros st Hg; simpl; [done|].
  case_bool_decide; [done|]. by apply IH, process_issue_grown.
Qed.

Lemma assign_tasks_grown workload issues ws :
  Forall2 grown (seed workload ws)
          (interns (assign_tasks add_to_assignees max_assignments
                      workload issues ws)).
Proof.
  assert (Forall2 grown (seed workload ws) (seed workload ws)) as Hrefl.
  { apply Forall_Forall2_diag, Forall_forall. intros w _. apply grown_refl. }
  unfold assign_tasks. destruct issues; [done|]. by apply assign_loop_grown.
Qed.
End Loads.

(** X2. A run changes nothing of the interns but their loads: after
    [assign_tasks] the list of interns has the same entries in the same
    order, with the usernames, names, skills, preferences and limits they
    had. *)
Theorem assign_tasks_keeps_directory
    add_to_assignees max_assignments workload issues ws :
  directory_entry <$> interns (assign_tasks add_to_assignees max_assignments
                                 workload issues ws)
  = directory_entry <$> ws.
Proof.
  pose proof (assign_tasks_grown add_to_assignees max_assignments
                workload issues ws) as Hg.
  assert (directory_entry <$> seed workload ws = directory_entry <$> ws) as <-.
  { unfold seed. rewrite <- list_fmap_compose. by apply list_fmap_ext. }
  induction Hg as [|w0 w ws0 ws' (Hdir & _) _ IH]; [done|].
  rewrite !fmap_cons. by rewrite Hdir, IH.
Qed.

(** X3. Whatever the seeded loads are, also above the limit: during a run
    no load goes down, and a load goes up only while it is below the
    limit. So at the end every load lies between the seeded load and the
    larger of the seeded load and the limit, and an intern seeded at or
    above its limit ends with the load it was seeded with. *)
Theorem loads_grow_within_limits
    add_to_assignees max_assignments workload issues ws i w0 :
  seed workload ws !! i = Some w0 →
  ∃ w, interns (assign_tasks add_to_assignees max_assignments
                  workload issues ws) !! i = Some w
       ∧ current_tasks w0 ≤ current_tasks w
       ∧ current_tasks w ≤ Z.max (current_tasks w0) (max_tasks w0)
       ∧ (max_tasks w0 ≤ current_tasks w0 → w = w0).
Proof.
  intros Hw0.
  pose proof (assign_tasks_grown add_to_assignees max_assignments
                workload issues ws) as Hg.
  destruct (Forall2_lookup_l _ _ _ _ _ Hg Hw0) as (w & Hw & Hdir & Hlo & Hhi).
  exists w. split; [done|]. split; [done|]. split; [done|].
  intros Hfull. apply directory_entry_load; [done|]. lia.
Qed.

Lemma loads_grow_within_limits_witness :
  ∃ w, interns (assign_tasks accept_all 10 full_workload
                  [ScenarioA.I1] [ScenarioA.A; ScenarioA.B]) !! 0%nat = Some w
       ∧ current_tasks w = 3.
Proof.
  destruct (loads_grow_within_limits accept_all 10 full_workload
              [ScenarioA.I1] [ScenarioA.A; ScenarioA.B] 0%nat
              (set_current_tasks 3 ScenarioA.A))
    as (w & Hw & _ & _ & Hsame).
  - by vm_compute.
  - exists w. split; [exact Hw|]. rewrite Hsame; [done|]. simpl. lia.
Defined.

(** ** Invariants of a run *)

Section Invariants.
Variable add_to_assignees : Tracker.
Variable max_assignments : Z.

(** What the loop body keeps for the issues of the list, the whole loop
    keeps. *)
Lemma assign_loop_invariant (P : RunState → Prop) issues :
  (∀ st issue, issue ∈ issues → P st →
               P (process_issue add_to_assignees st issue)) →
  ∀ st, P st → P (assign_loop add_to_assignees max_assignments st issues).
Proof.
  induction issues as [|issue rest IH]; intros Hstep st Hst; simpl; [done|].
  case_bool_decide; [done|]. apply IH.
  - intros st' issue' Hin. apply Hstep. by apply list_elem_of_further.
  - apply Hstep; [apply list_elem_of_here|done].
Qed.

Lemma assign_tasks_invariant (P : RunState → Prop) workload issues ws :
  P (initial_state workload ws) →
  (∀ st issue, issue ∈ issues → P st →
               P (process_issue add_to_assignees st issue)) →
  P (assign_tasks add_to_assignees max_assignments workload issues ws).
Proof.
  intros Hinit Hstep. unfold assign_tasks.
  destruct issues as [|issue issues]; [done|].
  apply assign_loop_invariant; [|done].
  intros st issue' Hin. apply Hstep.
  unfold sort_by_priority in Hin. by rewrite sort_by_perm in Hin.
Qed.
End Invariants.

Lemma spare_nonneg ws : 0 ≤ spare ws.
Proof. induction ws as [|w ws IH]; simpl; lia. Qed.

Lemma spare_cons w ws :
  spare (w :: ws) = Z.max 0 (max_tasks w - current_tasks w) + spare ws.
Proof. done. Qed.

Lemma spare_bump r ws :
  ws !! r.1 = Some r.2 → has_capacity r.2 → spare (bump r ws) = spare ws - 1.
Proof.
  unfold bump, has_capacity. destruct r as [i w0]. simpl. revert i.
  induction ws as [|w ws IH]; intros i Hi Hc; [done|].
  destruct i as [|i]; cbn [alter list_alter]; rewrite !spare_cons.
  - injection Hi as ->. simpl. lia.
  - simpl in Hi. rewrite (IH i) by done. lia.
Qed.

Lemma assign_tasks_spare add_to_assignees max_assignments workload issues ws :
  let st := assign_tasks add_to_assignees max_assignments workload issues ws in
  Z.of_nat (length (assignments (output st))) + spare (interns st)
  = spare (seed workload ws).
Proof.
  intros st. subst st. apply assign_tasks_invariant; [simpl; lia|].
  intros st issue _ Hst.
  destruct (process_issue_cases add_to_assignees st issue)
    as [[_ ->]|(r & s & Hb & _ & [[_ ->]|(e & _ & ->)])];
    rewrite assignments_print_assigned, length_app; simpl;
    rewrite ?Nat.add_0_r; try done.
  apply find_best_some in Hb as (Hr & Hc & _).
  rewrite spare_bump by done. lia.
Qed.

(** X4. Every assignment uses up one unit of room: the number of
    assignments of a run is the room the interns had below their limits
    after seeding minus the room they have left. So a run never makes more
    assignments than the seeded interns have room for, whatever
    [max_assignments] is. *)
Theorem assignments_use_spare_room
    add_to_assignees max_assignments workload issues ws :
  let st := assign_tasks add_to_assignees max_assignments workload issues ws in
  Z.of_nat (length (assignments (output st)))
  = spare (seed workload ws) - spare (interns st)
  ∧ Z.of_nat (length (assignments (output st))) ≤ spare (seed workload ws).
Proof.
  intros st.
  pose proof (assign_tasks_spare add_to_assignees max_assignments
                workload issues ws) as Hinv.
  cbv zeta in Hinv. fold st in Hinv.
  pose proof (spare_nonneg (interns st)). lia.
Qed.

Lemma assigned_to_print i ev st :
  assigned_to i (output (print ev st))
  = (assigned_to i (output st)
     + match ev with
       | Assigned _ r _ => if decide (r.1 = i) then 1 else 0
       | _ => 0
       end)%nat.
Proof.
  unfold assigned_to. rewrite assignments_print_assigned, filter_app, length_app.
  f_equal. destruct ev as [issue r s| |]; try done.
  rewrite filter_cons. simpl. by destruct (decide (r.1 = i)).
Qed.

(** X5. The load of an intern at the end of a run is the load it was
    seeded with plus the number of assignments the run gave to it. *)
Theorem load_counts_assignments
    add_to_assignees max_assignments workload issues ws i :
  let st := assign_tasks add_to_assignees max_assignments workload issues ws in
  current_tasks <$> interns st !! i
  = (fun w0 => current_tasks w0 + Z.of_nat (assigned_to i (output st)))
    <$> seed workload ws !! i.
Proof.
  intros st. subst st.
  apply (assign_tasks_invariant add_to_assignees max_assignments
           (fun st => current_tasks <$> interns st !! i
                      = (fun w0 => current_tasks w0
                                   + Z.of_nat (assigned_to i (output st)))
                        <$> seed workload ws !! i)).
  - unfold initial_state. cbn [interns output].
    change (assigned_to i []) with 0%nat.
    destruct (seed workload ws !! i); simpl; [f_equal; lia|done].
  - intros st issue _ Hst.
    destruct (process_issue_cases add_to_assignees st issue)
      as [[_ ->]|(r & s & Hb & _ & [[_ ->]|(e & _ & ->)])];
      rewrite assigned_to_print; cbn [print interns sent count_assignment];
      rewrite ?Nat.add_0_r; try done.
    unfold bump. destruct (decide (r.1 = i)) as [<-|Hne].
    + rewrite list_lookup_alter_eq, <- option_fmap_compose.
      destruct (interns st !! r.1) as [w|] eqn:Hw,
               (seed workload ws !! r.1) as [w0|]; simpl in *; try done.
      injection Hst as Hst. f_equal. lia.
    + rewrite list_lookup_alter_ne by done. by rewrite Nat.add_0_r.
Qed.

Lemma seed_directory workload ws i w0 :
  seed workload ws !! i = Some w0 →
  directory_entry <$> ws !! i = Some (directory_entry w0).
Proof.
  unfold seed. rewrite list_lookup_fmap.
  destruct (ws !! i) as [w|]; simpl; [|done]. by intros [= <-].
Qed.

(** X6. Every assignment a run makes is sound: the issue is one of the
    unassigned issues given to the run, the intern is the one at the
    recorded position of the directory and was below its limit when it
    was chosen, and the recorded score is the score of that intern on
    that issue at that moment and is above 0. *)
Theorem assignments_are_sound
    add_to_assignees max_assignments workload issues ws :
  Forall (sound_assignment issues ws)
         (assignments (output (assign_tasks add_to_assignees max_assignments
                                 workload issues ws))).
Proof.
  apply (assign_tasks_invariant add_to_assignees max_assignments
           (fun st => Forall2 grown (seed workload ws) (interns st)
                      ∧ Forall (sound_assignment issues ws)
                               (assignments (output st)))).
  - split; [|by apply Forall_nil_2].
    apply Forall_Forall2_diag, Forall_forall. intros w _. apply grown_refl.
  - intros st issue Hin [Hg Hsound].
    split; [by apply process_issue_grown|].
    destruct (process_issue_cases add_to_assignees st issue)
      as [[_ ->]|(r & s & Hb & Hs & [[_ ->]|(e & _ & ->)])];
      rewrite assignments_print_assigned; cbn [sent count_assignment output];
      rewrite ?app_nil_r; try done.
    apply Forall_app. split; [done|]. apply Forall_singleton.
    apply find_best_some in Hb as (Hr & Hc & Hscore).
    destruct (Forall2_lookup_r _ _ _ _ _ Hg Hr) as (w0 & Hw0 & Hdir & _).
    unfold sound_assignment. simpl.
    split; [done|]. split; [|done].
    rewrite (seed_directory _ _ _ _ Hw0). by rewrite Hdir.
Qed.

(** ** Priority labels and the skip *)

Lemma priority_bonus_pos tags :
  "high-priority" ∈ tags ∨ "medium-priority" ∈ tags → 0 < priority_bonus tags.
Proof.
  unfold priority_bonus, PyStr.mem, pts_1_0, pts_0_5.
  intros [H|H]; repeat case_bool_decide; done || lia.
Qed.

Lemma priority_score_pos issue w :
  has_priority_label issue → 0 < calculate_task_score issue w.
Proof.
  intros Hp. apply priority_bonus_pos in Hp.
  rewrite calculate_task_score_additive. unfold additive_score.
  pose proof (count_tags_nonneg
    (fun skill => PyStr.mem skill (item_tags issue)
                  || PyStr.contains (item_text issue) skill) (skills w)).
  pose proof (count_tags_nonneg
    (fun pref => PyStr.mem pref (item_tags issue)) (preferences w)).
  assert (0 ≤ first_task_bonus (item_tags issue) (current_tasks w)).
  { unfold first_task_bonus, pts_1_0. by destruct (_ && _). }
  unfold pts_2_0, pts_1_5. lia.
Qed.

(** X7. An issue with a high-priority or medium-priority label is never
    skipped while some intern is below its limit, even when no skill or
    preference matches: the priority bonus alone makes the best score
    positive, so the loop body calls the tracker for the first intern
    with the greatest score, and assigns the issue when the call
    returns. *)
Theorem priority_issue_is_offered add_to_assignees st issue :
  has_priority_label issue →
  (∃ w, w ∈ interns st ∧ has_capacity w) →
  ∃ r s, find_best issue (interns st) = (Some r, s) ∧ 0 < s
    ∧ calls (process_issue add_to_assignees st issue) = S (calls st)
    ∧ (add_to_assignees (calls st) issue (username r.2) = None →
       process_issue add_to_assignees st issue
       = print (Assigned issue r s) (count_assignment r (sent st))).
Proof.
  intros Hp (w & Hw & Hc).
  destruct (find_best_spec issue (interns st))
    as [[_ Hfull]|(k & w' & Hk & Hc' & Hb & _)].
  { rewrite Forall_forall in Hfull. by destruct (Hfull w Hw). }
  pose proof (priority_score_pos issue w' Hp) as Hs.
  exists (k, w'), (calculate_task_score issue w').
  split; [done|]. split; [done|]. split.
  - destruct (process_issue_cases add_to_assignees st issue)
      as [[[Hnone|Hle] _]|(r & s & Hb' & _ & [[_ ->]|(e & _ & ->)])];
      try done; rewrite Hb in *; simpl in *; [done|lia].
  - intros Hok. by apply process_issue_accepted.
Qed.

Lemma priority_issue_is_offered_witness :
  ∃ r s,
    find_best ScenarioA.I1 [ScenarioA.B] = (Some r, s) ∧ 0 < s
    ∧ process_issue accept_all (initial_state ∅ [ScenarioA.B]) ScenarioA.I1
      = print (Assigned ScenarioA.I1 r s)
              (count_assignment r (sent (initial_state ∅ [ScenarioA.B]))).
Proof.
  destruct (priority_issue_is_offered accept_all
              (initial_state ∅ [ScenarioA.B]) ScenarioA.I1)
    as (r & s & Hb & Hs & _ & Hok).
  - left. apply list_elem_of_further, list_elem_of_here.
  - exists ScenarioA.B. split; [apply list_elem_of_here|].
    unfold has_capacity. simpl. lia.
  - exists r, s. split; [exact Hb|]. split; [exact Hs|]. by apply Hok.
Defined.

(** ** What a run covers *)

Section Coverage.
Variable add_to_assignees : Tracker.
Variable max_assignments : Z.


Lemma assign_tasks_calls workload issues ws :
  let st := assign_tasks add_to_assignees max_assignments workload issues ws in
  calls st = length (List.filter is_call (output st)).
Proof.
  intros st. subst st. apply assign_tasks_invariant; [done|].
  intros st issue _ Hst.
  destruct (process_issue_cases add_to_assignees st issue)
    as [[_ ->]|(r & s & _ & _ & [[_ ->]|(e & _ & ->)])]; simpl;
    rewrite List.filter_app, length_app; simpl; lia.
Qed.

Lemma event_issues_elem workload issues ws issue :
  issue ∈ event_issue <$> output (assign_tasks add_to_assignees
                                    max_assignments workload issues ws) →
  issue ∈ issues.
Proof.
  destruct (assign_tasks_output add_to_assignees max_assignments
              workload issues ws) as [n ->].
  intros Hin%elem_of_take. destruct Hin as (i & Hi & _).
  apply list_elem_of_lookup_2 in Hi.
  unfold sort_by_priority in Hi. by rewrite sort_by_perm in Hi.
Qed.

Lemma event_issues_NoDup workload issues ws :
  NoDup issues →
  NoDup (event_issue <$> output (assign_tasks add_to_assignees
                                   max_assignments workload issues ws)).
Proof.
  intros Hnd.
  destruct (assign_tasks_output add_to_assignees max_assignments
              workload issues ws) as [n ->].
  apply (sublist_NoDup _ (sort_by_priority issues)); [|apply sublist_take].
  unfold sort_by_priority. by rewrite sort_by_perm.
Qed.
End Coverage.



Lemma assignments_le_calls out :
  (length (assignments out) ≤ length (List.filter is_call out))%nat.
Proof.
  unfold assignments.
  induction out as [|ev out IH]; [done|].
  destruct ev; cbn in *; lia.
Qed.

(** X9. The tracker is called once for every line that reports an
    assignment or an assignment error, and never for a skipped issue; in
    particular a run sends at least as many calls as it makes
    assignments. *)
Theorem calls_match_lines add_to_assignees max_assignments workload issues ws :
  let st := assign_tasks add_to_assignees max_assignments workload issues ws in
  calls st = length (List.filter is_call (output st))
  ∧ (length (assignments (output st)) ≤ calls st)%nat.
Proof.
  intros st.
  pose proof (assign_tasks_calls add_to_assignees max_assignments
                workload issues ws) as Hcalls.
  cbv zeta in Hcalls. fold st in Hcalls. split; [done|].
  rewrite Hcalls. apply assignments_le_calls.
Qed.

(** X10. No issue is handled twice: when the unassigned issues given to
    a run have distinct numbers, as the issues of a tracker have, no issue
    number has two lines in the output, and so no issue receives two
    assignments. *)
Theorem no_issue_assigned_twice
    add_to_assignees max_assignments workload issues ws :
  NoDup (number <$> issues) →
  let out := output (assign_tasks add_to_assignees max_assignments
                       workload issues ws) in
  NoDup (number <$> (event_issue <$> out))
  ∧ NoDup (number <$> assigned_issues out).
Proof.
  intros Hnd out.
  assert (NoDup (number <$> (event_issue <$> out))) as Hev.
  { destruct (assign_tasks_output add_to_assignees max_assignments
                workload issues ws) as [n Hn].
    fold out in Hn. rewrite Hn.
    apply (sublist_NoDup _ (number <$> sort_by_priority issues)).
    - unfold sort_by_priority. by rewrite sort_by_perm.
    - apply fmap_sublist, sublist_take. }
  split; [done|].
  apply (sublist_NoDup _ _ Hev), fmap_sublist, assigned_issues_sublist.
Qed.

Lemma no_issue_assigned_twice_witness :
  NoDup (number <$> assigned_issues (output
    (assign_tasks accept_all 10 ∅ [ScenarioRetry.J1; ScenarioRetry.J2]
       [ScenarioA.A; ScenarioA.B]))).
Proof.
  apply (no_issue_assigned_twice accept_all 10 ∅
           [ScenarioRetry.J1; ScenarioRetry.J2] [ScenarioA.A; ScenarioA.B]).
  change (NoDup [11; 12]). apply NoDup_cons. split.
  - intros Hin%list_elem_of_singleton. discriminate Hin.
  - apply NoDup_singleton.
Defined.

(** ** Runs on fetched listings *)

Lemma get_unassigned_issues_elem open_issues issue :
  issue ∈ get_unassigned_issues open_issues ↔
  ∃ o, o ∈ open_issues ∧ content o = issue
       ∧ assignees o = [] ∧ pull_request o = false.
Proof.
  unfold get_unassigned_issues. rewrite list_elem_of_fmap. split.
  - intros (o & -> & Hin). apply list_elem_of_filter in Hin as [[? ?] ?].
    by exists o.
  - intros (o & Hin & <- & Ha & Hp). exists o. split; [done|].
    by apply list_elem_of_filter.
Qed.

(** X11. A run on fetched listings only assigns issues that the tracker
    listed as open, without any assignee and not as a pull request. *)
Theorem fetched_assignments_were_unassigned
    add_to_assignees max_assignments workload_listing issue_listing ws issue :
  issue ∈ assigned_issues (output (assign_tasks_fetching add_to_assignees
                                     max_assignments workload_listing
                                     issue_listing ws)) →
  ∃ o, o ∈ issue_listing ∧ content o = issue
       ∧ assignees o = [] ∧ pull_request o = false.
Proof.
  intros Hin. apply get_unassigned_issues_elem.
  unfold assign_tasks_fetching in Hin.
  eapply event_issues_elem.
  eapply elem_of_sublist; [exact Hin|apply assigned_issues_sublist].
Qed.

Lemma fetched_assignments_were_unassigned_witness :
  ∃ o, o ∈ ScenarioListing.listing ∧ content o = ScenarioA.I1
       ∧ assignees o = [] ∧ pull_request o = false.
Proof.
  apply (fetched_assignments_were_unassigned accept_all 10
           ScenarioListing.listing ScenarioListing.listing
           [ScenarioA.A; ScenarioA.B]).
  assert (assigned_issues (output (assign_tasks_fetching accept_all 10
            ScenarioListing.listing ScenarioListing.listing
            [ScenarioA.A; ScenarioA.B])) = [ScenarioA.I1]) as ->
    by (by vm_compute).
  apply list_elem_of_here.
Defined.

(** X12. In a run on fetched listings the load of an intern never falls
    below the number of open issues the workload listing assigns to its
    login, so no load is ever negative. *)
Theorem fetched_loads_cover_open_issues
    add_to_assignees max_assignments workload_listing issue_listing ws i w :
  interns (assign_tasks_fetching add_to_assignees max_assignments
             workload_listing issue_listing ws) !! i = Some w →
  Z.of_nat (occurrences (username w) (all_assignees workload_listing))
  ≤ current_tasks w
  ∧ 0 ≤ current_tasks w.
Proof.
  intros Hw. unfold assign_tasks_fetching in Hw.
  pose proof (assign_tasks_grown add_to_assignees max_assignments
                (get_intern_workload workload_listing)
                (get_unassigned_issues issue_listing) ws) as Hg.
  destruct (Forall2_lookup_r _ _ _ _ _ Hg Hw) as (w0 & Hw0 & Hdir & Hlo & _).
  apply seed_load in Hw0. rewrite workload_get_count in Hw0.
  assert (username w = username w0) as ->
    by (apply (f_equal username) in Hdir; exact Hdir).
  lia.
Qed.

Lemma fetched_loads_cover_open_issues_witness :
  0 ≤ current_tasks (set_current_tasks 1 ScenarioA.B).
Proof.
  apply (fetched_loads_cover_open_issues accept_all 10
           ScenarioListing.listing ScenarioListing.listing
           [ScenarioA.A; ScenarioA.B] 1%nat).
  by vm_compute.
Defined.

(** X13. With the directory the script ships, a run on fetched listings
    makes at most 8 assignments (3 + 3 + 2, the limits of the three
    interns), whatever the bound, the issues and the tracker's answers. *)
Theorem shipped_directory_room
    add_to_assignees max_assignments workload_listing issue_listing :
  (length (assignments (output
     (assign_tasks_fetching add_to_assignees max_assignments
        workload_listing issue_listing _load_interns))) ≤ 8)%nat.
Proof.
  unfold assign_tasks_fetching.
  pose proof (assign_tasks_spare add_to_assignees max_assignments
                (get_intern_workload workload_listing)
                (get_unassigned_issues issue_listing) _load_interns) as Hinv.
  cbv zeta in Hinv.
  pose proof (spare_nonneg (interns (assign_tasks add_to_assignees
    max_assignments (get_intern_workload workload_listing)
    (get_unassigned_issues issue_listing) _load_interns))) as Hleft.
  assert (spare (seed (get_intern_workload workload_listing) _load_interns)
          ≤ 8) as Hroom.
  { unfold _load_interns, seed. rewrite !fmap_cons, !spare_cons. simpl.
    rewrite !workload_get_count. lia. }
  lia.
Qed.

(** ** More on the score *)

Lemma count_tags_le p tags : count_tags p tags ≤ Z.of_nat (length tags).
Proof.
  unfold count_tags. induction tags as [|t tags IH]; simpl; [lia|].
  destruct (p t); simpl length; lia.
Qed.

Lemma count_tags_zero p tags :
  count_tags p tags = 0 ↔ Forall (fun t => p t = false) tags.
Proof.
  unfold count_tags. induction tags as [|t tags IH]; simpl.
  - split; [by constructor|done].
  - rewrite Forall_cons. destruct (p t) eqn:Hp; simpl length.
    + split; [lia|]. by intros [? _].
    + rewrite <- IH. split; [by intros ?|by intros [_ ?]].
Qed.

(** X14. The score is never negative and never above 2.0 per skill tag
    plus 1.5 per preference tag plus 2.0 for the two bonuses (in half
    points: 4, 3 and 4); and it is 0 exactly when nothing of the issue
    speaks for the intern. *)
Theorem score_bounds issue w :
  0 ≤ calculate_task_score issue w
  ∧ calculate_task_score issue w
    ≤ 4 * Z.of_nat (length (skills w))
      + 3 * Z.of_nat (length (preferences w)) + 4
  ∧ (calculate_task_score issue w = 0 ↔ nothing_matches issue w).
Proof.
  rewrite calculate_task_score_additive. unfold additive_score, nothing_matches.
  set (p1 := fun skill => PyStr.mem skill (item_tags issue)
                          || PyStr.contains (item_text issue) skill).
  set (p2 := fun pref => PyStr.mem pref (item_tags issue)).
  pose proof (count_tags_nonneg p1 (skills w)) as Hs0.
  pose proof (count_tags_nonneg p2 (preferences w)) as Hp0.
  pose proof (count_tags_le p1 (skills w)) as Hs1.
  pose proof (count_tags_le p2 (preferences w)) as Hp1.
  pose proof (count_tags_zero p1 (skills w)) as Hsz.
  pose proof (count_tags_zero p2 (preferences w)) as Hpz.
  assert (Forall (fun t => p1 t = false) (skills w)
          ↔ Forall (fun skill => (skill ∉ item_tags issue)
                      ∧ PyStr.contains (item_text issue) skill = false)
                   (skills w)) as Hs.
  { apply Forall_proper; [|done]. intros skill. unfold p1, PyStr.mem.
    rewrite orb_false_iff, bool_decide_eq_false. done. }
  assert (Forall (fun t => p2 t = false) (preferences w)
          ↔ Forall (fun pref => pref ∉ item_tags issue) (preferences w))
    as Hp.
  { apply Forall_proper; [|done]. intros pref. unfold p2, PyStr.mem.
    by rewrite bool_decide_eq_false. }
  rewrite <- Hs, <- Hp, <- Hsz, <- Hpz.
  unfold has_priority_label, priority_bonus, first_task_bonus, PyStr.mem,
    pts_2_0, pts_1_5, pts_1_0, pts_0_5.
  repeat case_bool_decide; simpl; (split; [lia|]); (split; [lia|]);
    (split; [intros ?; repeat split; try lia; tauto
            |intros (? & ? & ? & ?); try lia; tauto]).
Qed.

(** X15. The first-task bonus decides between interns that are otherwise
    alike: on an issue with a good-first-issue label an intern with load 0
    scores exactly 1.0 (2 half points) more than an intern with the same
    skill and preference tags and a load other than 0, and as long as the
    first has room the selection never returns the second, wherever the
    two stand in the directory. *)
Theorem first_task_bonus_decides issue ws i j D E :
  ws !! i = Some D → ws !! j = Some E →
  skills D = skills E → preferences D = preferences E →
  current_tasks D = 0 → current_tasks E ≠ 0 → has_capacity D →
  "good first issue" ∈ item_tags issue →
  calculate_task_score issue D = calculate_task_score issue E + 2
  ∧ ∀ s, find_best issue ws ≠ (Some (j, E), s).
Proof.
  intros Hi Hj Hsk Hpr HD HE Hc Hgfi.
  assert (calculate_task_score issue D = calculate_task_score issue E + 2)
    as Hscore.
  { rewrite !calculate_task_score_additive. unfold additive_score.
    rewrite Hsk, Hpr, HD. unfold first_task_bonus, PyStr.mem, pts_1_0.
    rewrite (bool_decide_eq_true_2 _ Hgfi).
    rewrite (bool_decide_eq_false_2 (current_tasks E = 0)) by done.
    simpl. lia. }
  split; [done|]. intros s Hb.
  destruct (find_best_spec issue ws)
    as [[Heq _]|(k & w & Hk & _ & Heq & Hall)]; rewrite Heq in Hb; [done|].
  injection Hb as -> -> _.
  destruct (Hall i D Hi Hc) as [Hle _]. lia.
Qed.

Lemma first_task_bonus_decides_witness :
  calculate_task_score ScenarioC.I3 ScenarioC.D
  = calculate_task_score ScenarioC.I3 ScenarioC.E + 2
  ∧ ∀ s, find_best ScenarioC.I3 [ScenarioC.E; ScenarioC.D]
         ≠ (Some (0%nat, ScenarioC.E), s).
Proof.
  apply (first_task_bonus_decides ScenarioC.I3 [ScenarioC.E; ScenarioC.D]
           1%nat 0%nat ScenarioC.D ScenarioC.E);
    try reflexivity.
  - simpl. lia.
  - assert (item_tags ScenarioC.I3 = ["good first issue"]) as ->
      by (by vm_compute).
    apply list_elem_of_here.
Defined.

(** ** The shape of the suggestions *)

Lemma candidates_nil issue ws : ∀ i,
  candidates issue i ws = [] → Forall (fun w => ¬ has_capacity w) ws.
Proof.
  induction ws as [|w ws IH]; intros i; simpl; [by constructor|].
  case_bool_decide; [done|]. intros Hnil%IH. by constructor.
Qed.

Lemma sort_by_nil {A} (key : A → Z) (l : list A) :
  sort_by key l = [] ↔ l = [].
Proof.
  split; [|by intros ->]. intros Hnil.
  apply Permutation_nil_r. by rewrite <- (sort_by_perm key l), Hnil.
Qed.

Lemma take_sorted_descending (n : nat) (l : list Suggestion) :
  StronglySorted (key_le (fun c : Suggestion => - c.2)) l →
  StronglySorted (fun a b : Suggestion => b.2 ≤ a.2) (take n l).
Proof.
  intros Hs. revert n. induction Hs as [|c l _ IH Hc]; intros [|n]; simpl;
    try constructor; [apply IH|].
  apply Forall_forall. intros d Hd%elem_of_take. destruct Hd as (k & Hk & _).
  rewrite Forall_forall in Hc. apply list_elem_of_lookup_2, Hc in Hk.
  unfold key_le in Hk. lia.
Qed.

(** X16. For every issue suggest mode prints at most three candidates, in
    the order of their scores from high to low; each is an intern of the
    seeded directory below its limit, printed with its score on the issue;
    and the list is empty only when every intern is at its limit, so an
    issue on which everybody scores 0 still gets candidates. *)
Theorem suggestions_shape workload issues ws issue tops :
  (issue, tops) ∈ (suggest_assignments workload issues ws).2 →
  issue ∈ issues
  ∧ (length tops ≤ 3)%nat
  ∧ StronglySorted (fun a b : Suggestion => b.2 ≤ a.2) tops
  ∧ Forall (fun c : Suggestion =>
              seed workload ws !! c.1.1 = Some c.1.2
              ∧ has_capacity c.1.2
              ∧ c.2 = calculate_task_score issue c.1.2) tops
  ∧ (tops = [] ↔ Forall (fun w => ¬ has_capacity w) (seed workload ws)).
Proof.
  unfold suggest_assignments. rewrite suggest_loop_seed. simpl.
  intros (issue' & Heq & Hin)%list_elem_of_fmap.
  injection Heq as <- ->. unfold top_suggestions.
  split; [done|]. split; [rewrite length_take; lia|].
  split; [apply take_sorted_descending, sort_by_sorted|]. split.
  - apply Forall_forall. intros c Hc%elem_of_take.
    destruct Hc as (k & Hk & _). apply list_elem_of_lookup_2 in Hk.
    rewrite sort_by_perm in Hk.
    apply candidates_score in Hk as (Hl & _ & Hcap & Hs).
    by rewrite Nat.sub_0_r in Hl.
  - split.
    + intros Hnil. apply (candidates_nil issue _ 0%nat).
      apply (sort_by_nil (fun c : Suggestion => - c.2)).
      destruct (sort_by _ _); [done|discriminate Hnil].
    + intros Hfull. by rewrite candidates_full.
Qed.

Lemma suggestions_shape_witness :
  (length [((0%nat, ScenarioA.A), 13); ((1%nat, ScenarioA.B), 2)] ≤ 3)%nat.
Proof.
  destruct (suggestions_shape ∅ [ScenarioA.I1] [ScenarioA.A; ScenarioA.B]
              ScenarioA.I1
              [((0%nat, ScenarioA.A), 13); ((1%nat, ScenarioA.B), 2)])
    as (_ & Hlen & _).
  - assert ((suggest_assignments ∅ [ScenarioA.I1]
               [ScenarioA.A; ScenarioA.B]).2
            = [(ScenarioA.I1, [((0%nat, ScenarioA.A), 13);
                               ((1%nat, ScenarioA.B), 2)])]) as ->
      by (by vm_compute).
    apply list_elem_of_here.
  - exact Hlen.
Defined.

(** ** Sorting twice *)

(** X17. Sorting by priority twice is sorting once, and a list that is
    already in priority order is left exactly as it is: among issues of
    one rank the order of the listing is the order of processing. *)
Theorem priority_sort_idempotent issues :
  sort_by_priority (sort_by_priority issues) = sort_by_priority issues
  ∧ (StronglySorted (fun a b => priority_key a ≤ priority_key b) issues →
     sort_by_priority issues = issues).
Proof.
  assert (∀ l, StronglySorted (key_le priority_key) l →
               sort_by_priority l = l) as Hsorted.
  { intros l Hl. symmetry. by apply sort_by_unique. }
  split; [apply Hsorted, sort_by_sorted|apply Hsorted].
Qed.

Lemma priority_sort_idempotent_witness :
  sort_by_priority [ScenarioSuggest.K2; ScenarioSuggest.K1]
  = [ScenarioSuggest.K2; ScenarioSuggest.K1].
Proof.
  apply (proj2 (priority_sort_idempotent
                  [ScenarioSuggest.K2; ScenarioSuggest.K1])).
  assert (priority_key ScenarioSuggest.K2 = 0) as H2 by (by vm_compute).
  assert (priority_key ScenarioSuggest.K1 = 2) as H1 by (by vm_compute).
  repeat constructor. rewrite H1, H2. lia.
Defined.

(** ** Independence of earlier runs *)

Lemma seed_directory_entry workload ws :
  seed workload (directory_entry <$> ws) = seed workload ws.
Proof.
  unfold seed. rewrite <- list_fmap_compose. by apply list_fmap_ext.
Qed.

(** X19. A run starts from the fetched workload alone: the loads the
    interns carry when [assign_tasks] is called are overwritten by the
    seeding, so two lists of interns that differ in nothing but the loads
    give the same run, and running [assign_tasks] on the interns a
    previous run has left gives what it gives on the original interns. *)
Theorem run_ignores_stale_loads
    add_to_assignees max_assignments workload issues ws1 ws2 :
  directory_entry <$> ws1 = directory_entry <$> ws2 →
  assign_tasks add_to_assignees max_assignments workload issues ws1
  = assign_tasks add_to_assignees max_assignments workload issues ws2
  ∧ ∀ tracker0 max0 workload0 issues0,
      assign_tasks add_to_assignees max_assignments workload issues
        (interns (assign_tasks tracker0 max0 workload0 issues0 ws1))
      = assign_tasks add_to_assignees max_assignments workload issues ws2.
Proof.
  intros Hdir.
  assert (∀ wsa wsb, directory_entry <$> wsa = directory_entry <$> wsb →
            assign_tasks add_to_assignees max_assignments workload issues wsa
            = assign_tasks add_to_assignees max_assignments workload issues wsb)
    as Hsame.
  { intros wsa wsb Hab. unfold assign_tasks, initial_state.
    by rewrite <- (seed_directory_entry workload wsa), Hab,
      seed_directory_entry. }
  split; [by apply Hsame|].
  intros tracker0 max0 workload0 issues0. apply Hsame.
  rewrite <- Hdir.
  pose proof (assign_tasks_grown tracker0 max0 workload0 issues0 ws1) as Hg.
  assert (directory_entry <$> seed workload0 ws1 = directory_entry <$> ws1)
    as <-.
  { unfold seed. rewrite <- list_fmap_compose. by apply list_fmap_ext. }
  induction Hg as [|w0 w ws0 ws' (Hd & _) _ IH]; [done|].
  rewrite !fmap_cons. by rewrite Hd, IH.
Qed.

Lemma run_ignores_stale_loads_witness :
  assign_tasks accept_all 10 ∅ [ScenarioA.I1]
    [set_current_tasks 7 ScenarioA.A; ScenarioA.B]
  = assign_tasks accept_all 10 ∅ [ScenarioA.I1] [ScenarioA.A; ScenarioA.B].
Proof.
  destruct (run_ignores_stale_loads accept_all 10 ∅ [ScenarioA.I1]
              [set_current_tasks 7 ScenarioA.A; ScenarioA.B]
              [ScenarioA.A; ScenarioA.B]) as [Hsame _].
  - reflexivity.
  - exact Hsame.
Defined.

(** ** Substrings and letter case *)

Lemma append_empty s : "" +:+ s = s.
Proof. done. Qed.

Lemma append_cons c s t : String c s +:+ t = String c (s +:+ t).
Proof. done. Qed.

Lemma contains_unfold hay needle :
  PyStr.contains hay needle
  = String.prefix needle hay
    || match hay with
       | EmptyString => false
       | String _ hay' => PyStr.contains hay' needle
       end.
Proof. by destruct hay. Qed.

Lemma prefix_empty hay : String.prefix "" hay = true.
Proof. by destruct hay. Qed.

Lemma prefix_append needle rest :
  String.prefix needle (needle +:+ rest) = true.
Proof.
  induction needle as [|c needle IH].
  - apply prefix_empty.
  - rewrite append_cons. simpl. by destruct (Ascii.ascii_dec c c).
Qed.

Lemma prefix_split needle hay :
  String.prefix needle hay = true → ∃ rest, hay = needle +:+ rest.
Proof.
  revert hay. induction needle as [|c needle IH]; intros hay.
  - intros _. by exists hay.
  - destruct hay as [|d hay]; simpl; [done|].
    destruct (Ascii.ascii_dec c d) as [->|]; [|done].
    intros [rest ->]%IH. by exists rest.
Qed.

Lemma prefix_shorter needle more hay :
  String.prefix (needle +:+ more) hay = true → String.prefix needle hay = true.
Proof.
  revert hay. induction needle as [|c needle IH]; intros hay.
  - intros _. apply prefix_empty.
  - rewrite append_cons. destruct hay as [|d hay]; simpl; [done|].
    destruct (Ascii.ascii_dec c d); [apply IH|done].
Qed.

Lemma contains_append front needle rest :
  PyStr.contains (front +:+ (needle +:+ rest)) needle = true.
Proof.
  induction front as [|c front IH].
  - rewrite append_empty, contains_unfold. by rewrite prefix_append.
  - rewrite append_cons, contains_unfold. by rewrite IH, orb_true_r.
Qed.

Lemma contains_split hay needle :
  PyStr.contains hay needle = true →
  ∃ front rest, hay = front +:+ (needle +:+ rest).
Proof.
  induction hay as [|c hay IH]; rewrite contains_unfold.
  - rewrite orb_false_r. intros [rest ->]%prefix_split. by exists "", rest.
  - intros [Hp|Hc]%orb_true_iff.
    + apply prefix_split in Hp as [rest ->]. by exists "", rest.
    + destruct (IH Hc) as (front & rest & ->).
      by exists (String c front), rest.
Qed.

Lemma contains_shorter hay needle more :
  PyStr.contains hay (needle +:+ more) = true →
  PyStr.contains hay needle = true.
Proof.
  induction hay as [|c hay IH].
  - rewrite (contains_unfold "" needle), (contains_unfold "" (needle +:+ more)).
    rewrite !orb_false_r. apply prefix_shorter.
  - rewrite (contains_unfold (String c hay) needle),
      (contains_unfold (String c hay) (needle +:+ more)).
    intros [Hp|Hc]%orb_true_iff.
    + by rewrite (prefix_shorter _ _ _ Hp).
    + by rewrite (IH Hc), orb_true_r.
Qed.

Lemma contains_empty hay : PyStr.contains hay "" = true.
Proof. rewrite contains_unfold. by rewrite prefix_empty. Qed.

Lemma lower_append s t :
  PyStr.lower (s +:+ t) = PyStr.lower s +:+ PyStr.lower t.
Proof.
  induction s as [|c s IH]; [done|].
  rewrite append_cons. simpl PyStr.lower. by rewrite IH, append_cons.
Qed.

Lemma lower_char_idemp c :
  PyStr.lower_char (PyStr.lower_char c) = PyStr.lower_char c.
Proof. by destruct c as [[] [] [] [] [] [] [] []]. Qed.

Lemma lower_idemp s : PyStr.lower (PyStr.lower s) = PyStr.lower s.
Proof.
  induction s as [|c s IH]; simpl; [done|]. by rewrite lower_char_idemp, IH.
Qed.

Lemma count_tags_pos p tags t :
  t ∈ tags → p t = true → 1 ≤ count_tags p tags.
Proof.
  unfold count_tags. intros Hin Hp.
  induction tags as [|t' tags IH]; [by apply elem_of_nil in Hin|].
  apply elem_of_cons in Hin as [<-|Hin]; simpl.
  - rewrite Hp. simpl length. lia.
  - specialize (IH Hin). destruct (p t'); simpl length; lia.
Qed.

(** X20. Skill tags match text inside words: when the body of an issue
    is ASCII text that contains, anywhere and in any letter case, the
    letters of one of the intern's skill tags (as the lower-case tag is
    written), the intern scores at least 2.0 (4 half points) on the
    issue. *)
Theorem skill_matches_inside_words issue w skill front mid rest :
  skill ∈ skills w →
  body issue = Some (front +:+ (mid +:+ rest)) →
  is_ascii (front +:+ (mid +:+ rest)) = true →
  PyStr.lower mid = skill →
  4 ≤ calculate_task_score issue w.
Proof.
  intros Hskill Hbody _ Hmid.
  rewrite calculate_task_score_additive. unfold additive_score.
  set (p1 := fun skill => PyStr.mem skill (item_tags issue)
                          || PyStr.contains (item_text issue) skill).
  assert (1 ≤ count_tags p1 (skills w)) as Hcount.
  { apply (count_tags_pos p1 _ skill Hskill). unfold p1, item_text.
    rewrite Hbody. simpl default. rewrite !lower_append, Hmid.
    by rewrite contains_append, orb_true_r. }
  pose proof (count_tags_nonneg
    (fun pref => PyStr.mem pref (item_tags issue)) (preferences w)).
  assert (0 ≤ priority_bonus (item_tags issue)).
  { unfold priority_bonus, pts_1_0, pts_0_5.
    repeat match goal with |- context [if ?b then _ else _] => destruct b end;
      lia. }
  assert (0 ≤ first_task_bonus (item_tags issue) (current_tasks w)).
  { unfold first_task_bonus, pts_1_0. by destruct (_ && _). }
  unfold pts_2_0, pts_1_5. lia.
Qed.

Lemma skill_matches_inside_words_witness :
  4 ≤ calculate_task_score ScenarioWords.I ScenarioWords.M.
Proof.
  apply (skill_matches_inside_words ScenarioWords.I ScenarioWords.M
           "ai" "M" "ai" "ntain the build").
  - apply list_elem_of_here.
  - reflexivity.
  - reflexivity.
  - reflexivity.
Defined.

(** ** [get_sprint_issues] *)

Lemma in_sprint_lower sprint_name issue :
  in_sprint (PyStr.lower sprint_name) issue = in_sprint sprint_name issue.
Proof. unfold in_sprint. by rewrite lower_idemp. Qed.

(** X21. For a sprint name and issues in ASCII text the sprint name is
    matched without regard to its letter case: the name and the name in
    lower case find the same issues. For every sprint name the issues
    found keep the order of the listing, and an empty sprint name finds
    every open issue, since the empty text occurs in every title. *)
Theorem sprint_name_matching sprint_name open_issues :
  (is_ascii sprint_name = true → Forall ascii_board_issue open_issues →
   get_sprint_issues (PyStr.lower sprint_name) open_issues
   = get_sprint_issues sprint_name open_issues)
  ∧ get_sprint_issues sprint_name open_issues `sublist_of` open_issues
  ∧ get_sprint_issues "" open_issues = open_issues.
Proof.
  unfold get_sprint_issues. split; [|split].
  - intros _ _. apply list_filter_iff. intros issue.
    by rewrite in_sprint_lower.
  - apply sublist_filter.
  - induction open_issues as [|issue rest IH]; [done|].
    rewrite filter_cons, IH.
    assert (in_sprint "" issue = true) as Hin.
    { unfold in_sprint. simpl PyStr.lower.
      by rewrite contains_empty, orb_true_r. }
    by destruct (decide (in_sprint "" issue = true)).
Qed.

Lemma ascii_board_issue_W10 : ascii_board_issue ScenarioWords.W10.
Proof.
  split; [reflexivity|]. split; [apply Forall_nil_2|].
  intros milestone_title Hm. discriminate Hm.
Qed.

Lemma sprint_name_matching_witness :
  get_sprint_issues (PyStr.lower "WEEK 1") [ScenarioWords.W10]
  = get_sprint_issues "WEEK 1" [ScenarioWords.W10].
Proof.
  apply (proj1 (sprint_name_matching "WEEK 1" [ScenarioWords.W10])).
  - reflexivity.
  - apply Forall_singleton, ascii_board_issue_W10.
Defined.

(** X22. A sprint name also collects the issues of every sprint whose
    name begins with it: with names and issue texts in ASCII, an issue
    whose title or milestone title contains a longer name that starts with
    the sprint name is found for the sprint name as well (the board of
    [Week 1] takes in the issues of [Week 10]). *)
Theorem sprint_name_prefix_collects sprint_name more issue open_issues :
  issue ∈ open_issues →
  is_ascii (sprint_name +:+ more) = true →
  ascii_board_issue issue →
  (PyStr.contains (PyStr.lower (title (board_issue issue)))
                  (PyStr.lower (sprint_name +:+ more)) = true
   ∨ ∃ milestone_title,
       milestone issue = Some milestone_title
       ∧ PyStr.contains (PyStr.lower milestone_title)
                        (PyStr.lower (sprint_name +:+ more)) = true) →
  issue ∈ get_sprint_issues sprint_name open_issues.
Proof.
  intros Hin _ _ Hmatch. unfold get_sprint_issues.
  apply list_elem_of_filter. split; [|done]. unfold in_sprint.
  destruct Hmatch as [Ht|(t & Hm & Ht)]; rewrite lower_append in Ht;
    apply contains_shorter in Ht.
  - by rewrite Ht, orb_true_r.
  - by rewrite Hm, Ht, !orb_true_r.
Qed.

Lemma sprint_name_prefix_collects_witness :
  ScenarioWords.W10 ∈ get_sprint_issues "Week 1" [ScenarioWords.W10].
Proof.
  apply (sprint_name_prefix_collects "Week 1" "0" ScenarioWords.W10
           [ScenarioWords.W10]).
  - apply list_elem_of_here.
  - reflexivity.
  - apply ascii_board_issue_W10.
  - left. reflexivity.
Defined.
